(** * simplebot_clines: the Color Lines chat plugin

    A shallow embedding of [simplebot_clines/__init__.py]: the message
    filter, the [/lines_play], [/lines_next] and [/lines_repeat] commands
    and the turn runner [_run_turn], over an explicit world made of the
    score database, the engine's random state, the replies queued so far
    and a log of the calls made to the engine and to the database. The
    nick and scoreboard commands, which touch no board and no score, and
    the membership hook, which only deletes a player's row, are left
    out. *)

From Stdlib Require Import ZArith NArith List String Ascii Bool Lia.
From Stdlib Require Import Decimal DecimalString DecimalZ Sorted.
Import ListNotations.

Local Open Scope Z_scope.

(** ** Python values *)

(** A Python [str] whose characters are inspected ([len], [isalnum], ...)
    is a list of Unicode code points. *)
Definition codepoint := N.
Definition text := list codepoint.

(** Texts that are only built and sent (replies, exported boards) are kept
    as the bytes of their UTF-8 encoding. *)
Definition nl : string := String (ascii_of_nat 10) EmptyString.

(** [str(n)] for a Python [int]. *)
Definition py_str_int (n : Z) : string := NilZero.string_of_int (Z.to_int n).

(** [sep.join(parts)]. *)
Fixpoint py_join (sep : string) (parts : list string) : string :=
  match parts with
  | [] => EmptyString
  | [p] => p
  | p :: rest => (p ++ sep ++ py_join sep rest)%string
  end.

(** The character classes of CPython's Unicode database, on which
    [str.isalnum], [str.isalpha] and [str.isdigit] rest. *)
Record Unicode : Type := {
  uni_alpha : codepoint -> bool;
  uni_decimal : codepoint -> bool;
  uni_digit : codepoint -> bool;
  uni_numeric : codepoint -> bool
}.

Section PyStr.
Variable U : Unicode.

Definition ch_isalnum (c : codepoint) : bool :=
  uni_alpha U c || uni_decimal U c || uni_digit U c || uni_numeric U c.

(** Each of the three methods is false on the empty string. *)
Definition all_chars (p : codepoint -> bool) (t : text) : bool :=
  match t with
  | [] => false
  | _ => forallb p t
  end.

Definition isalnum (t : text) : bool := all_chars ch_isalnum t.
Definition isalpha (t : text) : bool := all_chars (uni_alpha U) t.
Definition isdigit (t : text) : bool := all_chars (uni_digit U) t.
End PyStr.

(** The Latin-1 block of the Unicode database (code points 0 to 255);
    code points beyond it are left unclassified. *)
Definition in_range (lo hi c : N) : bool := (lo <=? c)%N && (c <=? hi)%N.

Definition latin1_alpha (c : codepoint) : bool :=
  in_range 65 90 c || in_range 97 122 c || (c =? 170)%N || (c =? 181)%N
  || (c =? 186)%N || in_range 192 214 c || in_range 216 246 c
  || in_range 248 255 c.

Definition latin1_decimal (c : codepoint) : bool := in_range 48 57 c.

Definition latin1_digit (c : codepoint) : bool :=
  in_range 48 57 c || (c =? 178)%N || (c =? 179)%N || (c =? 185)%N.

Definition latin1_numeric (c : codepoint) : bool :=
  latin1_digit c || in_range 188 190 c.

Definition latin1 : Unicode :=
  {| uni_alpha := latin1_alpha; uni_decimal := latin1_decimal;
     uni_digit := latin1_digit; uni_numeric := latin1_numeric |}.

(** ** Exceptions and results *)

Inductive exn : Type :=
| ValueError
| AssertionError
| OtherError.

Inductive res (A : Type) : Type :=
| Ok (a : A)
| Raise (e : exn).
Arguments Ok {A} a.
Arguments Raise {A} e.

(** ** The game engine, [game.Board]

    The engine lives in [game.py], which is not among the sources; the
    plugin uses it only through the constructor and the members below,
    and the handlers are embedded over any engine with this interface. *)
Record Engine : Type := {
  board : Type;
  color : Type;
  rng : Type;
  (** [Board(board, old_score=...)]: both arguments are optional. A fresh
      board draws its first balls from the random state. *)
  Board : option string -> option Z -> rng -> res board * rng;
  (** [b.move(text)] *)
  move : text -> board -> res board;
  (** [b.next()] *)
  next : board -> rng -> res board * rng;
  (** [b.export()] *)
  export : board -> string;
  (** [b.score], [b.old_score], [b.result()] *)
  score : board -> Z;
  old_score : board -> Z;
  result : board -> Z;
  (** [b.game.next_balls], each with its [color]; [CELL] is the glyph
      table. *)
  next_balls : board -> list color;
  CELL : color -> string;
  (** [str(b)] *)
  to_str : board -> string
}.

(** ** The database, [db.DBManager] *)

(** One row of the games table: [game["addr"]], [game["gid"]],
    [game["board"]] and [game["score"]]. *)
Record game_row : Type := {
  g_addr : string;
  g_gid : Z;
  g_board : option string;
  g_score : Z
}.

Record DB : Type := {
  games : list game_row;
  nicks : list (string * string)
}.

(** Modelled from the spec: [DBManager] ([db.py]) is missing from the
    sources. The storage keeps one persisted row per game, holding the
    player's address, the group, the serialized board or the absent-board
    sentinel, and the score; the operations are the ones the plugin calls,
    with the arguments it passes. A lookup returns the first matching row,
    an update rewrites the rows of the given address. *)
Definition get_game_by_gid (d : DB) (gid : Z) : option game_row :=
  find (fun g => g_gid g =? gid) (games d).

Definition get_game_by_addr (d : DB) (a : string) : option game_row :=
  find (fun g => String.eqb (g_addr g) a) (games d).

Definition get_nick (d : DB) (a : string) : option string :=
  option_map snd (find (fun p => String.eqb (fst p) a) (nicks d)).

Definition upd_row (a : string) (f : game_row -> game_row) (g : game_row)
  : game_row :=
  if String.eqb (g_addr g) a then f g else g.

Definition set_row_game (b : option string) (sc : Z) (g : game_row)
  : game_row :=
  {| g_addr := g_addr g; g_gid := g_gid g; g_board := b; g_score := sc |}.

Definition set_row_board (b : option string) (g : game_row) : game_row :=
  {| g_addr := g_addr g; g_gid := g_gid g; g_board := b;
     g_score := g_score g |}.

Definition set_game (d : DB) (a : string) (b : option string) (sc : Z) : DB :=
  {| games := map (upd_row a (set_row_game b sc)) (games d);
     nicks := nicks d |}.

Definition set_board (d : DB) (a : string) (b : option string) : DB :=
  {| games := map (upd_row a (set_row_board b)) (games d);
     nicks := nicks d |}.

(** A new row starts with score 0. *)
Definition add_game (d : DB) (a : string) (gid : Z) (b : string) : DB :=
  {| games := games d ++ [ {| g_addr := a; g_gid := gid;
                              g_board := Some b; g_score := 0 |} ];
     nicks := nicks d |}.

(** The score stored for an address, if it has a row. *)
Definition stored_score (d : DB) (a : string) : option Z :=
  option_map g_score (get_game_by_addr d a).

(** Python truthiness of [game["board"]] and of a nick: [None] and the
    empty string are false. *)
Definition truthy (s : option string) : bool :=
  match s with
  | None => false
  | Some EmptyString => false
  | Some _ => true
  end.

(** ** The world the handlers run in *)

Record Message : Type := {
  m_text : text;          (* message.text *)
  m_chat : Z;             (* message.chat.id *)
  m_addr : string;        (* message.get_sender_contact().addr *)
  m_name : string         (* message.get_sender_contact().name *)
}.

(** [replies.add(text=..., chat=...)]; without [chat] the reply goes to
    the chat of the incoming message. *)
Record reply : Type := {
  r_text : string;
  r_chat : option Z
}.

(** What a handler does to the engine and to the database, in order. *)
Inductive event : Type :=
| CallBoard (s : option string) (old : option Z)
| CallMove (t : text)
| CallNext
| DbAddGame (a : string) (gid : Z) (b : string)
| DbSetGame (a : string) (b : option string) (sc : Z)
| DbSetBoard (a : string) (b : option string).

Definition is_db_write (e : event) : bool :=
  match e with
  | DbAddGame _ _ _ | DbSetGame _ _ _ | DbSetBoard _ _ => true
  | _ => false
  end.

Definition is_score_write (e : event) : bool :=
  match e with
  | DbSetGame _ _ _ => true
  | _ => false
  end.

Section Bot.
Variable U : Unicode.
Variable E : Engine.

Record world : Type := {
  w_db : DB;                  (* the global [db] *)
  w_rng : rng E;              (* the engine's random state *)
  w_replies : list reply;     (* the [Replies] object *)
  w_log : list event
}.

(** State and exceptions: a computation maps a world to the world it
    leaves and either a value or the exception it raised. *)
Definition M (A : Type) : Type := world -> world * res A.

Definition ret {A} (a : A) : M A := fun w => (w, Ok a).

Definition bind {A B} (m : M A) (k : A -> M B) : M B :=
  fun w => match m w with
           | (w', Ok a) => k a w'
           | (w', Raise e) => (w', Raise e)
           end.

Definition raise {A} (e : exn) : M A := fun w => (w, Raise e).

(** [try: body / except ValueError: handler] *)
Definition try_except_ValueError {A} (body handler : M A) : M A :=
  fun w => match body w with
           | (w', Raise ValueError) => handler w'
           | r => r
           end.

Notation "x <- m ;; k" := (bind m (fun x => k))
  (at level 61, m at next level, right associativity).
Notation "m ;;; k" := (bind m (fun _ => k))
  (at level 61, right associativity).

Definition emit (e : event) (w : world) : world :=
  {| w_db := w_db w; w_rng := w_rng w; w_replies := w_replies w;
     w_log := w_log w ++ [e] |}.

Definition with_db (d : DB) (w : world) : world :=
  {| w_db := d; w_rng := w_rng w; w_replies := w_replies w;
     w_log := w_log w |}.

Definition with_rng (r : rng E) (w : world) : world :=
  {| w_db := w_db w; w_rng := r; w_replies := w_replies w;
     w_log := w_log w |}.

Definition read_db {A} (f : DB -> A) : M A := fun w => (w, Ok (f (w_db w))).

Definition db_add_game (a : string) (gid : Z) (b : string) : M unit :=
  fun w => (with_db (add_game (w_db w) a gid b) (emit (DbAddGame a gid b) w),
            Ok tt).

Definition db_set_game (a : string) (b : option string) (sc : Z) : M unit :=
  fun w => (with_db (set_game (w_db w) a b sc) (emit (DbSetGame a b sc) w),
            Ok tt).

Definition db_set_board (a : string) (b : option string) : M unit :=
  fun w => (with_db (set_board (w_db w) a b) (emit (DbSetBoard a b) w),
            Ok tt).

Definition new_Board (s : option string) (old : option Z) : M (board E) :=
  fun w => let (r, g) := Board E s old (w_rng w) in
           (with_rng g (emit (CallBoard s old) w), r).

Definition call_move (t : text) (b : board E) : M (board E) :=
  fun w => (emit (CallMove t) w, move E t b).

Definition call_next (b : board E) : M (board E) :=
  fun w => let (r, g) := next E b (w_rng w) in
           (with_rng g (emit CallNext w), r).

Definition push_reply (r : reply) (w : world) : world :=
  {| w_db := w_db w; w_rng := w_rng w; w_replies := w_replies w ++ [r];
     w_log := w_log w |}.

Definition replies_add (t : string) (chat : option Z) : M unit :=
  fun w => (push_reply {| r_text := t; r_chat := chat |} w, Ok tt).

(** ** [_run_turn] *)

(** [score > old_score / 2]: the quotient is exact for every score a
    game can reach, so the test is [old_score < 2 * score]. *)
Definition above_half (sc old : Z) : bool := old <? 2 * sc.

(** The score recorded when a game ends. *)
Definition final_score (b : board E) : Z :=
  if (score E b <=? old_score E b) && above_half (score E b) (old_score E b)
  then old_score E b + 1
  else score E b.

Definition game_over_high (sc : Z) (b : board E) : string :=
  ("🏆 Game over" ++ nl ++ "New High Score: " ++ py_str_int sc ++ nl
   ++ "📊 /lines_top" ++ nl ++ nl ++ to_str E b
   ++ nl ++ "▶️ Play again?  /lines_play")%string.

Definition game_over_plain (sc : Z) (b : board E) : string :=
  ("☠️ Game over" ++ nl ++ "📊 Score: " ++ py_str_int sc ++ nl ++ nl
   ++ " " ++ to_str E b
   ++ nl ++ "▶️ Play again?  /lines_play")%string.

Definition turn_text (b : board E) (stored : Z) : string :=
  ("📊 Score: " ++ py_str_int (score E b) ++ " / " ++ py_str_int stored
   ++ nl ++ nl ++ to_str E b
   ++ nl ++ "Next:  " ++ py_join " " (map (CELL E) (next_balls E b))
   ++ "  /lines_next")%string.

Definition _run_turn (gid : Z) : M string :=
  g <- read_db (fun d => get_game_by_gid d gid) ;;
  match g with
  | None => raise AssertionError
  | Some g =>
    b <- new_Board (g_board g) None ;;
    if result E b =? 1 then
      let sc := final_score b in
      if sc >? old_score E b then
        db_set_game (g_addr g) None sc ;;;
        ret (game_over_high sc b)
      else
        db_set_board (g_addr g) None ;;;
        ret (game_over_plain sc b)
    else ret (turn_text b (g_score g))
  end.

(** ** [filter_messages] *)

Definition is_move_text (t : text) : bool :=
  negb (negb (Nat.eqb (List.length t) 4)
        || negb (isalnum U t) || isalpha U t || isdigit U t).

Definition filter_messages (message : Message) : M unit :=
  if negb (Nat.eqb (List.length (m_text message)) 4)
     || negb (isalnum U (m_text message))
     || isalpha U (m_text message)
     || isdigit U (m_text message)
  then ret tt
  else
    game <- read_db (fun d => get_game_by_gid d (m_chat message)) ;;
    match game with
    | None => ret tt
    | Some game =>
      if negb (truthy (g_board game)) then ret tt
      else
        try_except_ValueError
          (b <- new_Board (g_board game) None ;;
           b <- call_move (m_text message) b ;;
           (if score E b >? g_score game
            then db_set_game (g_addr game) (Some (export E b)) (score E b)
            else db_set_board (g_addr game) (Some (export E b))) ;;;
           t <- _run_turn (m_chat message) ;;
           replies_add t None)
          (replies_add "❌ Invalid move!" None)
    end.

(** ** [lines_play]

    [new_gid] is the id of the group [bot.create_group] returns. *)
Definition lines_play (new_gid : Z) (message : Message) : M unit :=
  nick <- read_db (fun d => get_nick d (m_addr message)) ;;
  if negb (truthy nick) then
    replies_add ("You need to set a nick before start playing,"
                 ++ " send /lines_nick Your Nick")%string None
  else
    game <- read_db (fun d => get_game_by_addr d (m_addr message)) ;;
    match game with
    | None =>
      b <- new_Board None None ;;
      db_add_game (m_addr message) new_gid (export E b) ;;;
      t <- _run_turn new_gid ;;
      replies_add ("Hello " ++ m_name message
                   ++ ", in this group you can play Color Lines."
                   ++ nl ++ nl ++ t)%string (Some new_gid)
    | Some game =>
      b <- new_Board None (Some (g_score game)) ;;
      db_set_board (g_addr game) (Some (export E b)) ;;;
      t <- _run_turn (g_gid game) ;;
      replies_add ("Game started!" ++ nl ++ nl ++ t)%string
                  (Some (g_gid game))
    end.

(** ** [lines_next] *)

Definition no_active_game : string :=
  "No active game, send /lines_play to start playing.".

Definition lines_next (message : Message) : M unit :=
  game <- read_db (fun d => get_game_by_gid d (m_chat message)) ;;
  match game with
  | Some game =>
    if truthy (g_board game) then
      b <- new_Board (g_board game) None ;;
      b <- call_next b ;;
      db_set_board (g_addr game) (Some (export E b)) ;;;
      t <- _run_turn (m_chat message) ;;
      replies_add t None
    else replies_add no_active_game None
  | None => replies_add no_active_game None
  end.

(** ** [lines_repeat] *)

Definition lines_repeat (message : Message) : M unit :=
  game <- read_db (fun d => get_game_by_addr d (m_addr message)) ;;
  match game with
  | Some game =>
    if truthy (g_board game) then
      t <- _run_turn (g_gid game) ;;
      replies_add t (Some (g_gid game))
    else replies_add no_active_game None
  | None => replies_add no_active_game None
  end.

End Bot.

Arguments w_db {E} w.
Arguments w_rng {E} w.
Arguments w_replies {E} w.
Arguments w_log {E} w.
Arguments emit {E} e w.
Arguments with_db {E} d w.
Arguments with_rng {E} r w.
Arguments push_reply {E} r w.

(** ** The Color Lines engine, as the specification describes it *)

Module Lines.

(** Modelled from the spec: the engine ([game.py]) is missing from the
    sources. Cell: empty or a ball of one of seven colours. *)
Inductive color : Type :=
| Red | Green | Blue | Yellow | Purple | Cyan | Orange.

(** Modelled from the spec: a cell of the missing engine's grid, empty
    ([None]) or holding a ball. *)
Definition cell : Type := option color.

(** Modelled from the spec: equality of the colours of the missing
    engine. *)
Definition color_eqb (a b : color) : bool :=
  match a, b with
  | Red, Red | Green, Green | Blue, Blue | Yellow, Yellow
  | Purple, Purple | Cyan, Cyan | Orange, Orange => true
  | _, _ => false
  end.

(** Modelled from the spec: the standard constants of the missing
    engine, a 9x9 grid, batches of 3 balls, runs of at least 5. *)
Definition side : nat := 9.
Definition cells : nat := (side * side)%nat.
Definition batch : nat := 3.
Definition min_run : nat := 5.

(** Modelled from the spec: the GameState of the missing engine. The
    grid is kept row by row; [next_balls] is the lookahead batch, the one
    the next spawn places; whether the game is over is read off the
    grid. *)
Record GameState : Type := {
  grid : list cell;
  score : Z;
  old_score : Z;
  next_balls : list color
}.

(** Modelled from the spec: the invariants of the missing engine's data
    model, a full grid and a lookahead batch of the fixed length. *)
Definition well_formed (st : GameState) : Prop :=
  List.length (grid st) = cells /\ List.length (next_balls st) = batch.

(** Modelled from the spec: the error taxonomy of the missing engine. *)
Inductive error : Type :=
| OutOfBounds | InvalidMove | CorruptState | AlreadyOver.

(** *** Grid *)

(** Modelled from the spec: Grid's [get] and [set] of the missing engine,
    on positions counted row by row; [set] leaves a grid alone outside
    its bounds, where [get] reads no ball. *)
Definition get (g : list cell) (i : nat) : cell := nth i g None.

Fixpoint set (i : nat) (v : cell) (g : list cell) : list cell :=
  match g, i with
  | [], _ => []
  | _ :: t, O => v :: t
  | c :: t, S j => c :: set j v t
  end.

(** Modelled from the spec: Grid's predicates [isEmpty] and [hasBall] of
    the missing engine, and the list of its empty positions. *)
Definition isEmpty (g : list cell) (i : nat) : bool :=
  match get g i with None => true | Some _ => false end.

Definition hasBall (g : list cell) (i : nat) : bool := negb (isEmpty g i).

Definition empty_cells (g : list cell) : list nat :=
  filter (isEmpty g) (seq 0 (List.length g)).

(** *** PathFinder *)

(** Modelled from the spec: the 4-directional adjacency the missing
    PathFinder walks. *)
Definition neighbours (i : nat) : list nat :=
  let r := Nat.div i side in
  let c := Nat.modulo i side in
  (if Nat.ltb 0 r then [(i - side)%nat] else [])
  ++ (if Nat.ltb (S r) side then [(i + side)%nat] else [])
  ++ (if Nat.ltb 0 c then [(i - 1)%nat] else [])
  ++ (if Nat.ltb (S c) side then [(i + 1)%nat] else []).

Definition mem (i : nat) (l : list nat) : bool := existsb (Nat.eqb i) l.

Fixpoint add_new (l acc : list nat) : list nat :=
  match l with
  | [] => acc
  | i :: t => if mem i acc then add_new t acc else add_new t (acc ++ [i])
  end.

(** Modelled from the spec: the traversal of the missing PathFinder,
    breadth first through empty cells with a visited set; every round
    adds the empty neighbours of the cells seen so far, and [cells]
    rounds reach everything reachable. *)
Fixpoint flood (fuel : nat) (g : list cell) (seen : list nat) : list nat :=
  match fuel with
  | O => seen
  | S f =>
    flood f g (add_new (filter (isEmpty g) (flat_map neighbours seen)) seen)
  end.

(** Modelled from the spec: PathFinder's [existsPath] of the missing
    engine, for two distinct positions inside the grid. *)
Definition existsPath (g : list cell) (src dst : nat) : bool :=
  isEmpty g dst && mem dst (flood cells g [src]).

(** *** MatchDetector *)

(** Modelled from the spec: the four run directions of the missing
    MatchDetector, and the run of one colour that starts at a cell. *)
Definition directions : list (Z * Z) := [(0, 1); (1, 0); (1, 1); (1, -1)].

Definition in_grid (r c : Z) : bool :=
  (0 <=? r) && (r <? Z.of_nat side) && (0 <=? c) && (c <? Z.of_nat side).

Definition index (r c : Z) : nat := Z.to_nat (r * Z.of_nat side + c).

Fixpoint run (fuel : nat) (g : list cell) (col : color) (r c dr dc : Z)
  : list nat :=
  match fuel with
  | O => []
  | S f =>
    if in_grid r c then
      match get g (index r c) with
      | Some col' =>
        if color_eqb col col'
        then index r c :: run f g col (r + dr) (c + dc) dr dc
        else []
      | None => []
      end
    else []
  end.

Definition runs_from (g : list cell) (i : nat) : list nat :=
  match get g i with
  | None => []
  | Some col =>
    flat_map (fun d : Z * Z =>
      let l := run side g col (Z.of_nat (Nat.div i side))
                   (Z.of_nat (Nat.modulo i side)) (fst d) (snd d) in
      if Nat.leb min_run (List.length l) then l else []) directions
  end.

(** Modelled from the spec: MatchDetector's [findMatches] of the missing
    engine; the result is a set, each position once. *)
Definition findMatches (g : list cell) : list nat :=
  add_new (flat_map (runs_from g) (seq 0 (List.length g))) [].

Definition clear (g : list cell) (ps : list nat) : list cell :=
  fold_left (fun acc p => set p None acc) ps g.

(** Modelled from the spec: the clearing event of the missing engine,
    one point per cleared ball. *)
Definition clear_matches (st : GameState) : GameState :=
  let ms := findMatches (grid st) in
  {| grid := clear (grid st) ms;
     score := score st + Z.of_nat (List.length ms);
     old_score := old_score st;
     next_balls := next_balls st |}.

(** *** BallSpawner *)

(** Modelled from the spec: the random state of the missing BallSpawner,
    a linear congruential generator. *)
Definition rng : Type := N.

Definition rand (s : rng) : rng :=
  ((s * 1103515245 + 12345) mod 2147483648)%N.

Definition color_of_nat (n : nat) : color :=
  match n with
  | 0%nat => Red | 1%nat => Green | 2%nat => Blue | 3%nat => Yellow
  | 4%nat => Purple | 5%nat => Cyan | _ => Orange
  end.

(** Modelled from the spec: BallSpawner's [nextBatch] of the missing
    engine, a batch of colours and the new random state. *)
Fixpoint nextBatch' (n : nat) (s : rng) : list color * rng :=
  match n with
  | O => ([], s)
  | S m =>
    let s1 := rand s in
    let (l, s2) := nextBatch' m s1 in
    (color_of_nat (N.to_nat (s1 / 65536 mod 7)%N) :: l, s2)
  end.

Definition nextBatch (s : rng) : list color * rng := nextBatch' batch s.

(** Modelled from the spec: the placement of a batch by the missing
    engine, ball by ball on empty cells drawn at random, as many as
    fit. *)
Fixpoint place (cs : list color) (g : list cell) (s : rng)
  : list cell * rng :=
  match cs with
  | [] => (g, s)
  | c :: rest =>
    match empty_cells g with
    | [] => (g, s)
    | e :: es =>
      let s1 := rand s in
      let k := N.to_nat ((s1 / 65536) mod N.of_nat (List.length (e :: es)))%N in
      place rest (set (nth k (e :: es) e) (Some c) g) s1
    end
  end.

(** *** GameEngine *)

(** Modelled from the spec: [result()] of the missing engine, 1 when the
    game is over: the grid cannot take a further full batch. *)
Definition result (st : GameState) : Z :=
  if Nat.ltb (List.length (empty_cells (grid st))) batch then 1 else 0.

(** Modelled from the spec: the spawn phase of the missing engine: place
    the lookahead batch, clear and score the runs it creates, draw a new
    lookahead batch. *)
Definition spawn (st : GameState) (s : rng) : GameState * rng :=
  let (g, s1) := place (next_balls st) (grid st) s in
  let (nb, s2) := nextBatch s1 in
  (clear_matches {| grid := g; score := score st;
                    old_score := old_score st; next_balls := nb |}, s2).

(** Modelled from the spec: [next()] of the missing engine; on a game
    that is over it changes nothing. *)
Definition next (st : GameState) (s : rng) : GameState * rng :=
  if result st =? 1 then (st, s) else spawn st s.

(** Modelled from the spec: a fresh game of the missing engine, an empty
    grid with one batch placed, a lookahead batch, score 0 and the
    carried score. *)
Definition fresh (old : Z) (s : rng) : GameState * rng :=
  let (nb, s1) := nextBatch s in
  spawn {| grid := repeat None cells; score := 0; old_score := old;
           next_balls := nb |} s1.

(** Modelled from the spec: the move text of the missing engine, two
    coordinates of two characters, each a column letter [a]..[i] (either
    case) followed by a row digit [1]..[9]. *)
Definition column_of (c : codepoint) : option nat :=
  if in_range 97 105 c then Some (N.to_nat (c - 97))
  else if in_range 65 73 c then Some (N.to_nat (c - 65))
  else None.

Definition row_of (c : codepoint) : option nat :=
  if in_range 49 57 c then Some (N.to_nat (c - 49)) else None.

Definition position (l d : codepoint) : option nat :=
  match column_of l, row_of d with
  | Some c, Some r => Some (r * side + c)%nat
  | _, _ => None
  end.

Definition decode_move (t : text) : option (nat * nat) :=
  match t with
  | [l1; d1; l2; d2] =>
    match position l1 d1, position l2 d2 with
    | Some src, Some dst => Some (src, dst)
    | _, _ => None
    end
  | _ => None
  end.

(** Modelled from the spec: [move] of the missing engine. It fails with
    [InvalidMove] when a coordinate is outside the grid, the source has
    no ball, the destination is occupied or is the source, or no path of
    empty cells joins them; otherwise the ball is relocated and the runs
    it completes are cleared and scored. No ball is spawned. On a game
    that is over it changes nothing. *)
Definition move (t : text) (st : GameState) : GameState + error :=
  if result st =? 1 then inl st
  else
    match decode_move t with
    | None => inr InvalidMove
    | Some (src, dst) =>
      if hasBall (grid st) src && negb (Nat.eqb src dst)
         && existsPath (grid st) src dst
      then inl (clear_matches
                  {| grid := set src None (set dst (get (grid st) src) (grid st));
                     score := score st; old_score := old_score st;
                     next_balls := next_balls st |})
      else inr InvalidMove
    end.

(** *** Serialization *)

(** Modelled from the spec: the symbols of the missing engine's
    serialized state, one character per colour, [.] for an empty cell and
    [;] between fields, with decimal scores. *)
Definition color_sym (c : color) : ascii :=
  match c with
  | Red => "r" | Green => "g" | Blue => "b" | Yellow => "y"
  | Purple => "p" | Cyan => "c" | Orange => "o"
  end%char.

Definition cell_sym (c : cell) : ascii :=
  match c with
  | None => "."%char
  | Some k => color_sym k
  end.

Definition sym_color (a : ascii) : option color :=
  if Ascii.eqb a "r" then Some Red
  else if Ascii.eqb a "g" then Some Green
  else if Ascii.eqb a "b" then Some Blue
  else if Ascii.eqb a "y" then Some Yellow
  else if Ascii.eqb a "p" then Some Purple
  else if Ascii.eqb a "c" then Some Cyan
  else if Ascii.eqb a "o" then Some Orange
  else None.

Definition sym_cell (a : ascii) : option cell :=
  if Ascii.eqb a "." then Some None else option_map Some (sym_color a).

Definition sep : ascii := ";"%char.

Definition int_chars (n : Z) : list ascii :=
  list_ascii_of_string (py_str_int n).

Definition chars_int (l : list ascii) : option Z :=
  option_map Z.of_int (NilZero.int_of_string (string_of_list_ascii l)).

Fixpoint split_on (l : list ascii) : list (list ascii) :=
  match l with
  | [] => [[]]
  | c :: t =>
    if Ascii.eqb c sep then [] :: split_on t
    else match split_on t with
         | [] => [[c]]
         | h :: r => (c :: h) :: r
         end
  end.

Fixpoint read_all {A B} (f : A -> option B) (l : list A) : option (list B) :=
  match l with
  | [] => Some []
  | a :: t =>
    match f a, read_all f t with
    | Some b, Some r => Some (b :: r)
    | _, _ => None
    end
  end.

(** Modelled from the spec: [export()] of the missing engine. The fixed
    layout is the grid, cell by cell in row-major order, the current
    score, the carried score and the lookahead batch, the four fields
    separated by [;]. *)
Definition export (st : GameState) : string :=
  string_of_list_ascii
    (map cell_sym (grid st) ++ sep :: int_chars (score st)
     ++ sep :: int_chars (old_score st)
     ++ sep :: map color_sym (next_balls st)).

(** Modelled from the spec: [import] of the missing engine; anything
    that is not a full state fails with [CorruptState]. *)
Definition import (s : string) : GameState + error :=
  match split_on (list_ascii_of_string s) with
  | [g; sc; old; nb] =>
    match read_all sym_cell g, chars_int sc, chars_int old,
          read_all sym_color nb with
    | Some g, Some sc, Some old, Some nb =>
      if Nat.eqb (List.length g) cells && Nat.eqb (List.length nb) batch
      then inl {| grid := g; score := sc; old_score := old;
                  next_balls := nb |}
      else inr CorruptState
    | _, _, _, _ => inr CorruptState
    end
  | _ => inr CorruptState
  end.

(** *** Rendering *)

(** Modelled from the spec: the glyph table [CELL] of the missing
    engine. *)
Definition CELL (c : color) : string :=
  match c with
  | Red => "🔴" | Green => "🟢" | Blue => "🔵" | Yellow => "🟡"
  | Purple => "🟣" | Cyan => "⚪" | Orange => "🟠"
  end.

(** Modelled from the spec: the rendering of the missing engine, the
    grid drawn row by row with the glyph table. *)
Definition cell_glyph (c : cell) : string :=
  match c with
  | None => "⬜"
  | Some k => CELL k
  end.

Fixpoint rows (n : nat) (g : list cell) : list (list cell) :=
  match n with
  | O => []
  | S m => firstn side g :: rows m (skipn side g)
  end.

Definition toDisplayText (st : GameState) : string :=
  py_join nl (map (fun r => py_join EmptyString (map cell_glyph r))
                  (rows side (grid st))).

(** *** Reachable states

    Modelled from the spec: the lifecycle of the missing engine's
    GameState, created fresh or reconstructed from a string, and changed
    by accepted moves and by spawns. *)
Inductive reachable : GameState -> Prop :=
| reach_fresh old s : reachable (fst (fresh old s))
| reach_import str st : import str = inl st -> reachable st
| reach_move t st st' : reachable st -> move t st = inl st' -> reachable st'
| reach_next st s : reachable st -> reachable (fst (next st s)).

End Lines.

(** ** The engine of the specification behind the plugin's interface *)

(** Modelled from the spec: the exceptions of the missing engine.
    [InvalidMove] is what the plugin catches, a [ValueError]; the failures
    it does not catch are another class. *)
Definition exn_of_error (e : Lines.error) : exn :=
  match e with
  | Lines.InvalidMove | Lines.OutOfBounds => ValueError
  | Lines.CorruptState | Lines.AlreadyOver => OtherError
  end.

Definition res_of {A} (r : A + Lines.error) : res A :=
  match r with
  | inl a => Ok a
  | inr e => Raise (exn_of_error e)
  end.

(** Modelled from the spec: the caller-facing contract of the missing
    engine: [Board()], [Board(old_score=S)], [Board(serialized)], [move],
    [next], [result], [score], [old_score], [export], the rendering and
    [game.next_balls]. *)
Definition LinesEngine : Engine :=
  {| board := Lines.GameState;
     color := Lines.color;
     rng := Lines.rng;
     Board := fun s old g =>
       match s with
       | Some str => (res_of (Lines.import str), g)
       | None =>
         let (st, g') := Lines.fresh (match old with Some o => o | None => 0 end) g in
         (Ok st, g')
       end;
     move := fun t b => res_of (Lines.move t b);
     next := fun b g => let (st, g') := Lines.next b g in (Ok st, g');
     export := Lines.export;
     score := Lines.score;
     old_score := Lines.old_score;
     result := Lines.result;
     next_balls := Lines.next_balls;
     CELL := Lines.CELL;
     to_str := Lines.toDisplayText |}.

Definition world0 (d : DB) (g : Lines.rng) : world LinesEngine :=
  Build_world LinesEngine d g [] [].

(** ** Operations, engine contract and database invariant *)

(** The handlers that can change the database. *)
Inductive operation : Type :=
| OpFilter (message : Message)
| OpPlay (new_gid : Z) (message : Message)
| OpNext (message : Message)
| OpRepeat (message : Message).

Definition run_op (U : Unicode) (E : Engine) (op : operation)
  : M E unit :=
  match op with
  | OpFilter m => filter_messages U E m
  | OpPlay new_gid m => lines_play E new_gid m
  | OpNext m => lines_next E m
  | OpRepeat m => lines_repeat E m
  end.

(** The group [bot.create_group] returns is a new one. *)
Definition op_admissible (op : operation) (d : DB) : Prop :=
  match op with
  | OpPlay new_gid _ => ~ In new_gid (map g_gid (games d))
  | _ => True
  end.

(** [d'] holds every score of [d], none lower. *)
Definition scores_le (d d' : DB) : Prop :=
  forall a sc, stored_score d a = Some sc ->
    exists sc', stored_score d' a = Some sc' /\ sc <= sc'.

Section Contract.
Variable E : Engine.

(** What the plugin relies on from the engine, for the boards [valid]
    singles out: an exported board reads back as itself, without
    touching the random state; a fresh board carries the score it was
    given (0 without one); a move or a spawn keeps the carried score and
    never lowers the running score. *)
Record EngineLaws (valid : board E -> Prop) : Prop := {
  law_roundtrip : forall b g,
    valid b -> Board E (Some (export E b)) None g = (Ok b, g);
  law_fresh : forall old g b g',
    Board E None old g = (Ok b, g') ->
    valid b /\ old_score E b = match old with Some o => o | None => 0 end;
  law_move : forall t b b',
    valid b -> move E t b = Ok b' ->
    valid b' /\ old_score E b' = old_score E b /\ score E b <= score E b';
  law_next : forall b g b' g',
    valid b -> next E b g = (Ok b', g') ->
    valid b' /\ old_score E b' = old_score E b /\ score E b <= score E b'
}.

(** A stored board is the export of a valid board, and the stored score
    is at most the larger of that board's two scores. *)
Definition row_ok (valid : board E -> Prop) (r : game_row) : Prop :=
  match g_board r with
  | None => True
  | Some s =>
    exists b, valid b /\ s = export E b
              /\ g_score r <= Z.max (old_score E b) (score E b)
  end.

(** One row per player and per group, every row in order. *)
Definition db_ok (valid : board E -> Prop) (d : DB) : Prop :=
  NoDup (map g_addr (games d))
  /\ NoDup (map g_gid (games d))
  /\ Forall (row_ok valid) (games d).

(** A step from [d] to [d'] that keeps the database in order and lowers
    no score. *)
Definition db_step_ok (valid : board E -> Prop) (d d' : DB) : Prop :=
  db_ok valid d' /\ scores_le d d'.

(** A score write a handler may make: [filter_messages] stores the
    running score with the board, above the score stored before;
    [_run_turn] stores the final score with the absent-board sentinel,
    above the carried score. *)
Definition score_write_ok (op : operation) (d : DB) (e : event) : Prop :=
  match e with
  | DbSetGame a (Some _) sc =>
    exists message game,
      op = OpFilter message
      /\ get_game_by_gid d (m_chat message) = Some game
      /\ a = g_addr game /\ g_score game < sc
  | DbSetGame a None sc =>
    exists b, sc = final_score E b /\ old_score E b < sc
  | _ => True
  end.
End Contract.

(** ** Sample data *)

Definition alice : string := "alice@example.org".

(** A game just started over a carried score of 42: balls on c6, g6 and
    d9. *)
Definition board_started : string :=
  "...............................................p...o.......................o.....;0;42;byc".

(** Full grids: games that are over, with running score 50, then 30, over
    a carried score of 42. *)
Definition board_over_50 : string :=
  "rgbypcorgbypcorgbypcorgbypcorgbypcorgbypcorgbypcorgbypcorgbypcorgbypcorgbypcorgby;50;42;rgb".

Definition board_over_30 : string :=
  "rgbypcorgbypcorgbypcorgbypcorgbypcorgbypcorgbypcorgbypcorgbypcorgbypcorgbypcorgby;30;42;rgb".

(** Three empty cells left, one of them closing a run of five blue balls,
    and a lookahead batch of three blue balls. *)
Definition board_crowded : string :=
  "bbbb.corgbypcorgbypcorgbypcorgbypcorgbyp.orgbypcorgbypcorgbypcorgbypcorgbypcorgb.;0;0;bbb".

(** The state a board string stands for. *)
Definition state_of (s : string) : Lines.GameState :=
  match Lines.import s with
  | inl st => st
  | inr _ => {| Lines.grid := []; Lines.score := 0; Lines.old_score := 0;
                Lines.next_balls := [] |}
  end.

Definition st_started : Lines.GameState :=
  Eval vm_compute in state_of board_started.
Definition st_over_50 : Lines.GameState :=
  Eval vm_compute in state_of board_over_50.
Definition st_over_30 : Lines.GameState :=
  Eval vm_compute in state_of board_over_30.
Definition st_crowded : Lines.GameState :=
  Eval vm_compute in state_of board_crowded.

(** A game started over a carried score of 42 with random state 5, and
    the crowded board after its spawn. *)
Definition st_fresh : Lines.GameState :=
  Eval vm_compute in fst (Lines.fresh 42 5%N).
Definition rng_fresh : Lines.rng :=
  Eval vm_compute in snd (Lines.fresh 42 5%N).
Definition st_spawned : Lines.GameState :=
  Eval vm_compute in fst (Lines.next st_crowded 5%N).
Definition rng_spawned : Lines.rng :=
  Eval vm_compute in snd (Lines.next st_crowded 5%N).

Definition db_with (b : option string) (sc : Z) : DB :=
  {| games := [ {| g_addr := alice; g_gid := 7; g_board := b;
                   g_score := sc |} ];
     nicks := [ (alice, "Alice"%string) ] |}.

Definition row_with (b : option string) (sc : Z) : game_row :=
  {| g_addr := alice; g_gid := 7; g_board := b; g_score := sc |}.

Definition msg (t : text) : Message :=
  {| m_text := t; m_chat := 7; m_addr := alice; m_name := "Alice" |}.

(** The texts [a1b2] (no ball on a1), [c6a1] (a legal move) and the four
    characters one-half. *)
Definition text_a1b2 : text := [97; 49; 98; 50]%N.
Definition text_c6a1 : text := [99; 54; 97; 49]%N.
Definition text_halves : text := [189; 189; 189; 189]%N.

(** The started game after the move [c6a1]. *)
Definition st_moved : Lines.GameState :=
  Eval vm_compute in
    match Lines.move text_c6a1 st_started with
    | inl st => st
    | inr _ => st_started
    end.

(** A full grid with a running score of 10 over a carried score of 42. *)
Definition board_over_10 : string :=
  "rgbypcorgbypcorgbypcorgbypcorgbypcorgbypcorgbypcorgbypcorgbypcorgbypcorgbypcorgby;10;42;rgb".

Definition st_over_10 : Lines.GameState :=
  Eval vm_compute in state_of board_over_10.

(** A first game, started with random state 5 and no carried score. *)
Definition st_new : Lines.GameState :=
  Eval vm_compute in fst (Lines.fresh 0 5%N).
Definition rng_new : Lines.rng :=
  Eval vm_compute in snd (Lines.fresh 0 5%N).

(** A stored board no engine reads. *)
Definition board_junk : string := "junk".

(** A player with a nick and no game yet, and a database without
    anything. *)
Definition db_nick_only : DB :=
  {| games := []; nicks := [ (alice, "Alice"%string) ] |}.

Definition db_empty : DB := {| games := []; nicks := [] |}.

(** An engine whose exported board cannot be read back: every move is
    accepted, and [Board] refuses what [export] gives with a
    [ValueError]. *)
Definition FragileEngine : Engine :=
  {| board := unit;
     color := unit;
     rng := unit;
     Board := fun s _ g =>
       match s with
       | Some str =>
         if String.eqb str "moved" then (Raise ValueError, g) else (Ok tt, g)
       | None => (Ok tt, g)
       end;
     move := fun _ b => Ok b;
     next := fun b g => (Ok b, g);
     export := fun _ => "moved"%string;
     score := fun _ => 0;
     old_score := fun _ => 0;
     result := fun _ => 0;
     next_balls := fun _ => [];
     CELL := fun _ => EmptyString;
     to_str := fun _ => EmptyString |}.

(** ** Relations between the world before and after a handler *)

(** The player and the group of a row. *)
Definition row_key (r : game_row) : string * Z := (g_addr r, g_gid r).

(** [d'] has the nicks of [d] and the same rows for the same players and
    groups, in the same order; boards and scores may differ. *)
Definition same_rows (d d' : DB) : Prop :=
  nicks d' = nicks d
  /\ map row_key (games d') = map row_key (games d).

(** Which calls and writes an operation may log: [move] comes from
    [filter_messages] with the text of the message, [next()] from
    [lines_next], a new row and a board constructed over a carried score
    from [lines_play], and [lines_repeat] stores no board. *)
Definition call_ok (op : operation) (e : event) : Prop :=
  match e with
  | CallMove t => exists m, op = OpFilter m /\ t = m_text m
  | CallNext => exists m, op = OpNext m
  | DbAddGame a gid _ =>
    exists m, op = OpPlay gid m /\ a = m_addr m
  | CallBoard s (Some _) => s = None /\ exists gid m, op = OpPlay gid m
  | CallBoard _ None => True
  | DbSetBoard _ (Some _) => forall m, op <> OpRepeat m
  | DbSetBoard _ None => True
  | DbSetGame _ _ _ => True
  end.

Section Steps.
Variable E : Engine.

(** Every run of [m] relates the world it starts from to the one it
    leaves. *)
Definition steps {A} (R : world E -> world E -> Prop) (m : M E A) : Prop :=
  forall w, R w (fst (m w)).

Definition keeps_rows (w w' : world E) : Prop :=
  same_rows (w_db w) (w_db w').

(** What is in the log afterwards was there before or satisfies [P]. *)
Definition logs_only (P : event -> Prop) (w w' : world E) : Prop :=
  forall e, In e (w_log w') -> In e (w_log w) \/ P e.

(** The engine itself raises no [AssertionError]. *)
Definition engine_no_assert : Prop :=
  (forall s old g, fst (Board E s old g) <> Raise AssertionError)
  /\ (forall t b, move E t b <> Raise AssertionError)
  /\ (forall b g, fst (next E b g) <> Raise AssertionError).
End Steps.

Arguments steps {E A} R m.
Arguments keeps_rows {E} w w'.
Arguments logs_only {E} P w w'.

Section Replies.
Variable E : Engine.

(** [m] never replies. *)
Definition quiet {A} (m : M E A) : Prop :=
  steps (fun w w' => w_replies w' = w_replies w) m.

(** [m] replies exactly once when it returns and not at all when it
    raises. *)
Definition replies_once {A} (m : M E A) : Prop :=
  forall w,
    match snd (m w) with
    | Ok _ => exists r, w_replies (fst (m w)) = w_replies w ++ [r]
    | Raise _ => w_replies (fst (m w)) = w_replies w
    end.

(** [m] replies at most once when it returns and not at all when it
    raises. *)
Definition replies_at_most_once {A} (m : M E A) : Prop :=
  forall w,
    match snd (m w) with
    | Ok _ => w_replies (fst (m w)) = w_replies w
              \/ exists r, w_replies (fst (m w)) = w_replies w ++ [r]
    | Raise _ => w_replies (fst (m w)) = w_replies w
    end.
End Replies.

Arguments quiet {E A} m.
Arguments replies_once {E A} m.
Arguments replies_at_most_once {E A} m.

Section Assertion.
Variable E : Engine.

(** The group [gid] has a row. *)
Definition has_gid (gid : Z) (w : world E) : Prop :=
  In gid (map g_gid (games (w_db w))).

(** Started where the group has a row, [m] raises no
    [AssertionError]. *)
Definition never_asserts {A} (gid : Z) (m : M E A) : Prop :=
  forall w, has_gid gid w -> snd (m w) <> Raise AssertionError.
End Assertion.

Arguments has_gid {E} gid w.
Arguments never_asserts {E A} gid m.

Section Rows.
Variable E : Engine.

(** The row of a group after an accepted move: the exported board, and
    the larger of the stored and the running score. *)
Definition moved_row (game : game_row) (b : board E) : game_row :=
  {| g_addr := g_addr game; g_gid := g_gid game;
     g_board := Some (export E b);
     g_score := Z.max (g_score game) (score E b) |}.

(** What [filter_messages] stores after a move. *)
Definition store_move (d : DB) (game : game_row) (b : board E) : DB :=
  if score E b >? g_score game
  then set_game d (g_addr game) (Some (export E b)) (score E b)
  else set_board d (g_addr game) (Some (export E b)).
End Rows.

Definition need_nick : string :=
  ("You need to set a nick before start playing,"
   ++ " send /lines_nick Your Nick")%string.

Definition invalid_move : reply :=
  {| r_text := "❌ Invalid move!"; r_chat := None |}.

(** ** [deltabot_member_removed] *)

(** A [deltachat.Contact]: its id, by which contacts of one account are
    compared, and its address. *)
Record Contact : Type := {
  c_id : Z;
  c_addr : string
}.

(** [contact != me] *)
Definition contact_neq (a b : Contact) : bool := negb (c_id a =? c_id b).

(** Modelled from the spec: [DBManager.delete_game] ([db.py]) is missing
    from the sources; it removes the rows of the given address. *)
Definition delete_game (d : DB) (a : string) : DB :=
  {| games := filter (fun g => negb (String.eqb (g_addr g) a)) (games d);
     nicks := nicks d |}.

(** The hook returns the database it leaves and whether it called
    [chat.remove_contact(me)]. [me] is [bot.self_contact], [chat_id] is
    [chat.id]. *)
Definition deltabot_member_removed (me : Contact) (chat_id : Z)
           (contact : Contact) (d : DB) : DB * bool :=
  match get_game_by_gid d chat_id with
  | Some game =>
    if String.eqb (c_addr contact) (c_addr me)
       || String.eqb (c_addr contact) (g_addr game)
    then (delete_game d (g_addr game), contact_neq contact me)
    else (d, false)
  | None => (d, false)
  end.

(** ** [lines_nick] *)

(** The characters for which [str.isspace] holds, the separators of
    [str.split()]. *)
Definition py_isspace (c : codepoint) : bool :=
  in_range 9 13 c || in_range 28 32 c || (c =? 133)%N || (c =? 160)%N
  || (c =? 5760)%N || in_range 8192 8202 c || (c =? 8232)%N
  || (c =? 8233)%N || (c =? 8239)%N || (c =? 8287)%N || (c =? 12288)%N.

Definition starts_word (t : text) : bool :=
  match t with
  | c :: _ => negb (py_isspace c)
  | [] => false
  end.

(** [t.split()]: the maximal runs of characters that are not
    whitespace. *)
Fixpoint py_split (t : text) : list text :=
  match t with
  | [] => []
  | c :: rest =>
    if py_isspace c then py_split rest
    else if starts_word rest then
           match py_split rest with
           | w :: ws => (c :: w) :: ws
           | [] => [[c]]
           end
         else [c] :: py_split rest
  end.

(** [sep.join(parts)] on texts. *)
Fixpoint text_join (sep : text) (parts : list text) : text :=
  match parts with
  | [] => []
  | [p] => p
  | p :: rest => p ++ sep ++ text_join sep rest
  end.

(** The class [[-a-zA-Z0-9_]] of [nick_re]. *)
Definition nick_char (c : codepoint) : bool :=
  (c =? 45)%N || in_range 97 122 c || in_range 65 90 c || in_range 48 57 c
  || (c =? 95)%N.

(** [$]: the end of the text, or just before a newline that ends it. *)
Definition at_end (t : text) : bool :=
  match t with
  | [] => true
  | [c] => (c =? 10)%N
  | _ => false
  end.

(** [{1,k}$] after the class: some number of repetitions from [k] down
    to 1 is followed by [$]. *)
Fixpoint class_then_end (k : nat) (t : text) : bool :=
  match k with
  | O => false
  | S k' =>
    (Nat.eqb (List.length (firstn k t)) k && forallb nick_char (firstn k t)
     && at_end (skipn k t))
    || class_then_end k' t
  end.

(** [nick_re.match(t)] for [nick_re = re.compile(r"[-a-zA-Z0-9_]{1,16}$")].
    *)
Definition nick_re_match (t : text) : bool := class_then_end 16 t.

(** A text of ASCII characters as the string it is. *)
Definition ascii_str (t : text) : string :=
  string_of_list_ascii (map ascii_of_N t).

(** Modelled from the spec: [DBManager.get_addr] ([db.py]) is missing
    from the sources, and the nickname registry is outside the
    specification; from its call site, it gives the address that holds
    the nick, if any. *)
Definition get_addr (d : DB) (nick : string) : option string :=
  option_map fst (find (fun p => String.eqb (snd p) nick) (nicks d)).

(** Modelled from the spec: [DBManager.set_nick] ([db.py]) is missing
    from the sources; from its call site, the address has the nick
    afterwards, in place of the one it had. *)
Definition set_nick (d : DB) (a nick : string) : DB :=
  {| games := games d;
     nicks := filter (fun p => negb (String.eqb (fst p) a)) (nicks d)
              ++ [(a, nick)] |}.

(** [str(x)] of an optional string: [None] prints as its name. *)
Definition py_str_opt (s : option string) : string :=
  match s with
  | Some x => x
  | None => "None"
  end.

Definition dq : string := String (ascii_of_nat 34) EmptyString.

Definition invalid_nick : string :=
  ("** Invalid nick, only letters, numbers, " ++ dq ++ "-" ++ dq ++ " and"
   ++ " " ++ dq ++ "_" ++ dq
   ++ " are allowed, and nick should be less than 16 characters")%string.

Definition nick_taken : string := "** Nick already taken, try again".

(** [payload] is the text after the command, [a] the address of the
    sender; the result is the database left and the text replied. *)
Definition lines_nick (payload : text) (a : string) (d : DB) : DB * string :=
  match payload with
  | _ :: _ =>
    let new_nick := text_join [32%N] (py_split payload) in
    if negb (nick_re_match new_nick) then (d, invalid_nick)
    else if truthy (get_addr d (ascii_str new_nick)) then (d, nick_taken)
    else (set_nick d a (ascii_str new_nick),
          ("** Nick: " ++ ascii_str new_nick)%string)
  | [] => (d, ("** Nick: " ++ py_str_opt (get_nick d a))%string)
  end.

(** A nick the filter lets through: 1 to 16 characters of the class. *)
Definition valid_nick (t : text) : bool :=
  Nat.leb 1 (List.length t) && Nat.leb (List.length t) 16
  && forallb nick_char t.

(** A word of [split()]: not empty, without whitespace. *)
Definition is_word (w : text) : Prop :=
  w <> [] /\ forallb (fun c => negb (py_isspace c)) w = true.

(** The nickname registry in order: one nick per address, no nick
    twice, no empty address, every nick a valid one. *)
Definition nicks_ok (d : DB) : Prop :=
  NoDup (map fst (nicks d))
  /\ NoDup (map snd (nicks d))
  /\ Forall (fun p : string * string =>
               fst p <> EmptyString
               /\ exists t, valid_nick t = true /\ snd p = ascii_str t)
            (nicks d).

(** ** [lines_top] *)

Definition limit : nat := 15.

Definition scoreboard_header : string :=
  ("🏆 Color Lines Scoreboard" ++ nl ++ nl)%string.

(** ["#{} {} {}\n".format(n, db.get_nick(g["addr"]), g["score"])] *)
Definition rank_line (d : DB) (n : nat) (g : game_row) : string :=
  ("#" ++ py_str_int (Z.of_nat n) ++ " "
   ++ py_str_opt (get_nick d (g_addr g)) ++ " "
   ++ py_str_int (g_score g) ++ nl)%string.

(** The loop over [enumerate(games[:limit], 1)]: [rows] is what is left
    of the slice and [n] the number of its first row. *)
Fixpoint rank_lines (d : DB) (n : nat) (rows : list game_row) : string :=
  match rows with
  | [] => EmptyString
  | g :: rest => (rank_line d n g ++ rank_lines d (S n) rest)%string
  end.

(** Rows are compared field by field. *)
Definition board_eqb (a b : option string) : bool :=
  match a, b with
  | Some x, Some y => String.eqb x y
  | None, None => true
  | _, _ => false
  end.

Definition row_eqb (a b : game_row) : bool :=
  String.eqb (g_addr a) (g_addr b) && (g_gid a =? g_gid b)
  && board_eqb (g_board a) (g_board b) && (g_score a =? g_score b).

(** [games.index(x)]: the position of the first row equal to [x], a
    [ValueError] when there is none. *)
Fixpoint py_index (x : game_row) (l : list game_row) : option nat :=
  match l with
  | [] => None
  | y :: rest =>
    if row_eqb y x then Some O else option_map S (py_index x rest)
  end.

(** [games[i]] for an index that is not negative: an [IndexError] past
    the end. *)
Definition py_item (l : list game_row) (i : nat) : res game_row :=
  match nth_error l i with
  | Some g => Ok g
  | None => Raise OtherError
  end.

Definition res_bind {A B} (r : res A) (k : A -> res B) : res B :=
  match r with
  | Ok a => k a
  | Raise e => Raise e
  end.

Section Top.
(** [db.get_games(limit)] and [db.get_games()]: [DBManager.get_games]
    ([db.py]) is missing from the sources, and nothing is assumed about
    the rows it returns or their order. *)
Variable get_games : DB -> option nat -> list game_row.

(** The result is the text of the reply, or the exception raised before
    any reply. *)
Definition lines_top (message : Message) (d : DB) : res string :=
  let text := scoreboard_header in
  let game := get_game_by_addr d (m_addr message) in
  let games :=
    match game with
    | None => get_games d (Some limit)
    | Some _ => get_games d None
    end in
  let text :=
    match games with
    | [] => (text ++ "(Empty list)")%string
    | _ :: _ => text
    end in
  let text := (text ++ rank_lines d 1 (firstn limit games))%string in
  match game with
  | None => Ok text
  | Some game =>
    match py_index game games with
    | None => Raise ValueError
    | Some player_pos =>
      if Nat.leb limit player_pos then
        let text := (text ++ nl)%string in
        res_bind
          (if Nat.ltb limit player_pos then
             res_bind (py_item games (player_pos - 1)) (fun pgame =>
             Ok (text ++ rank_line d player_pos pgame)%string)
           else Ok text) (fun text =>
        let text := (text ++ rank_line d (player_pos + 1) game)%string in
        if Nat.ltb player_pos (List.length games - 1) then
          res_bind (py_item games (player_pos + 1)) (fun ngame =>
          Ok (text ++ rank_line d (player_pos + 2) ngame)%string)
        else Ok text)
      else Ok text
    end
  end.

(** The rows [lines_top] asks the database for. *)
Definition asked_games (message : Message) (d : DB) : list game_row :=
  match get_game_by_addr d (m_addr message) with
  | None => get_games d (Some limit)
  | Some _ => get_games d None
  end.
End Top.

(** Numbered rows as text, one line each. *)
Fixpoint render (d : DB) (es : list (nat * game_row)) : string :=
  match es with
  | [] => EmptyString
  | (n, g) :: rest => (rank_line d n g ++ render d rest)%string
  end.

(** The head of the scoreboard and the lines around the sender: ranks
    count from 1. *)
Definition top_entries (games : list game_row) : list (nat * game_row) :=
  combine (seq 1 (List.length (firstn limit games))) (firstn limit games).

Definition around_entries (games : list game_row) (p : nat)
  : list (nat * game_row) :=
  (if Nat.ltb limit p then
     match nth_error games (p - 1) with
     | Some g => [(p, g)]
     | None => []
     end
   else [])
  ++ match nth_error games p with
     | Some g => [(p + 1, g)]%nat
     | None => []
     end
  ++ (if Nat.ltb p (List.length games - 1) then
        match nth_error games (p + 1) with
        | Some g => [(p + 2, g)]%nat
        | None => []
        end
      else []).

(** A database read in the order of the table. *)
Definition games_in_table_order (d : DB) (lim : option nat)
  : list game_row :=
  match lim with
  | Some n => firstn n (games d)
  | None => games d
  end.

(** ** More sample data *)

(** The bot's own contact and the contact of the player. *)
Definition bot_contact : Contact :=
  {| c_id := 1; c_addr := "bot@example.org" |}.

Definition alice_contact : Contact := {| c_id := 2; c_addr := alice |}.

(** The payloads [Bob] and [Dark Warrior], and a second player. *)
Definition text_bob : text := [66; 111; 98]%N.

Definition text_dark_warrior : text :=
  [68; 97; 114; 107; 32; 87; 97; 114; 114; 105; 111; 114]%N.

Definition bob : string := "bob@example.org".

(** Eighteen players without nicks, in the order of their scores, and a
    message of the one at position 16. *)
Definition league_row (n : nat) : game_row :=
  {| g_addr := ("player" ++ py_str_int (Z.of_nat n))%string;
     g_gid := Z.of_nat n;
     g_board := None;
     g_score := 100 - Z.of_nat n |}.

Definition db_league : DB :=
  {| games := map league_row (seq 0 18); nicks := [] |}.

Definition msg_player16 : Message :=
  {| m_text := []; m_chat := 16; m_addr := "player16";
     m_name := "Player" |}.

Definition text_league : string :=
  Eval vm_compute in
    match lines_top games_in_table_order msg_player16 db_league with
    | Ok t => t
    | Raise _ => EmptyString
    end.

(** * Properties *)

(** ** The serialization of the specification's engine *)

Module LinesFacts.
Import Lines.

Lemma set_length i v g : List.length (set i v g) = List.length g.
Proof.
  revert i; induction g as [|c t IH]; intros [|j]; simpl; auto.
Qed.

Lemma clear_length ps g : List.length (clear g ps) = List.length g.
Proof.
  unfold clear. revert g.
  induction ps as [|p ps IH]; intros g; simpl; [reflexivity|].
  rewrite IH. apply set_length.
Qed.

Lemma place_length cs : forall g s,
  List.length (fst (place cs g s)) = List.length g.
Proof.
  induction cs as [|c cs IH]; intros g s; simpl; [reflexivity|].
  destruct (empty_cells g) as [|e es]; [reflexivity|].
  rewrite IH. apply set_length.
Qed.

Lemma nextBatch'_length n : forall s,
  List.length (fst (nextBatch' n s)) = n.
Proof.
  induction n as [|n IH]; intros s; simpl; [reflexivity|].
  specialize (IH (rand s)).
  destruct (nextBatch' n (rand s)) as [l s2]. simpl in *. now rewrite IH.
Qed.

Lemma spawn_well_formed st s :
  List.length (grid st) = cells -> well_formed (fst (spawn st s)).
Proof.
  intros Hg. unfold spawn.
  pose proof (place_length (next_balls st) (grid st) s) as Hp.
  destruct (place (next_balls st) (grid st) s) as [g s1]. simpl in Hp.
  pose proof (nextBatch'_length batch s1) as Hb. unfold nextBatch.
  destruct (nextBatch' batch s1) as [nb s2]. simpl in Hb.
  split; simpl.
  - rewrite clear_length. congruence.
  - exact Hb.
Qed.

Lemma fresh_well_formed old s : well_formed (fst (fresh old s)).
Proof.
  unfold fresh. destruct (nextBatch s) as [nb s1].
  apply spawn_well_formed. cbn [grid]. apply repeat_length.
Qed.

Lemma next_well_formed st s :
  well_formed st -> well_formed (fst (next st s)).
Proof.
  intros Hwf. unfold next.
  destruct (result st =? 1); [exact Hwf|].
  apply spawn_well_formed. apply Hwf.
Qed.

Lemma move_well_formed t st st' :
  well_formed st -> move t st = inl st' -> well_formed st'.
Proof.
  intros [Hg Hn]. unfold move.
  destruct (result st =? 1).
  - intros [= <-]. now split.
  - destruct (decode_move t) as [[src dst]|]; [|discriminate].
    destruct (hasBall (grid st) src && negb (Nat.eqb src dst)
              && existsPath (grid st) src dst); [|discriminate].
    intros [= <-]. split; simpl.
    + now rewrite clear_length, !set_length.
    + exact Hn.
Qed.

Lemma import_well_formed str st : import str = inl st -> well_formed st.
Proof.
  unfold import.
  destruct (split_on (list_ascii_of_string str)) as [|g [|sc [|old [|nb [|? ?]]]]];
    try discriminate.
  destruct (read_all sym_cell g) as [g'|]; [|discriminate].
  destruct (chars_int sc) as [sc'|]; [|discriminate].
  destruct (chars_int old) as [old'|]; [|discriminate].
  destruct (read_all sym_color nb) as [nb'|]; [|discriminate].
  destruct (Nat.eqb (List.length g') cells) eqn:Hg; [|discriminate].
  destruct (Nat.eqb (List.length nb') batch) eqn:Hn; [|discriminate].
  simpl. intros [= <-]. split; simpl; now apply Nat.eqb_eq.
Qed.

Lemma reachable_well_formed st : reachable st -> well_formed st.
Proof.
  induction 1 as [old s|str st H|t st st' _ IH H|st s _ IH].
  - apply fresh_well_formed.
  - eapply import_well_formed; eassumption.
  - eapply move_well_formed; eassumption.
  - now apply next_well_formed.
Qed.

(** Reading back what was written, field by field. *)

Lemma read_all_map {A B} (f : A -> option B) (g : B -> A) l :
  (forall b, f (g b) = Some b) -> read_all f (map g l) = Some l.
Proof.
  intros Hfg. induction l as [|b l IH]; simpl; [reflexivity|].
  now rewrite Hfg, IH.
Qed.

Lemma sym_cell_sym c : sym_cell (cell_sym c) = Some c.
Proof. destruct c as [[]|]; reflexivity. Qed.

Lemma sym_color_sym c : sym_color (color_sym c) = Some c.
Proof. destruct c; reflexivity. Qed.

Lemma cell_sym_not_sep g : ~ In sep (map cell_sym g).
Proof.
  intros H. apply in_map_iff in H. destruct H as [c [Hc _]].
  destruct c as [[]|]; discriminate.
Qed.

Lemma uint_chars_not_sep d :
  ~ In sep (list_ascii_of_string (NilEmpty.string_of_uint d)).
Proof.
  induction d; simpl; try tauto;
    intros [H|H]; try discriminate; now apply IHd.
Qed.

Lemma int_chars_not_sep n : ~ In sep (int_chars n).
Proof.
  unfold int_chars, py_str_int.
  destruct (Z.to_int n) as [d|d]; simpl.
  - destruct d; try apply uint_chars_not_sep.
    simpl. intros [H|[]]. discriminate.
  - intros [H|H]; [discriminate|].
    destruct d; try (now apply uint_chars_not_sep in H).
    simpl in H. destruct H as [H|[]]. discriminate.
Qed.

Lemma chars_int_chars n : chars_int (int_chars n) = Some n.
Proof.
  unfold chars_int, int_chars, py_str_int.
  rewrite string_of_list_ascii_of_string.
  rewrite NilZero.isi.
  - simpl. f_equal. apply DecimalZ.of_to.
  - destruct n; simpl; try discriminate.
    intros [= H]. now apply DecimalPos.Unsigned.to_uint_nonnil in H.
  - destruct n; simpl; try discriminate.
    intros [= H]. now apply DecimalPos.Unsigned.to_uint_nonnil in H.
Qed.

Lemma split_on_nonempty l : split_on l <> [].
Proof.
  destruct l as [|c t]; simpl; [discriminate|].
  destruct (Ascii.eqb c sep); [discriminate|].
  destruct (split_on t); discriminate.
Qed.

Lemma split_on_field a rest :
  ~ In sep a -> split_on (a ++ sep :: rest) = a :: split_on rest.
Proof.
  induction a as [|c a IH]; intros Hn; simpl.
  - reflexivity.
  - destruct (Ascii.eqb_spec c sep) as [->|_].
    + exfalso. apply Hn. now left.
    + rewrite IH; [reflexivity|]. intros H. apply Hn. now right.
Qed.

Lemma split_on_last a : ~ In sep a -> split_on a = [a].
Proof.
  induction a as [|c a IH]; intros Hn; simpl.
  - reflexivity.
  - destruct (Ascii.eqb_spec c sep) as [->|_].
    + exfalso. apply Hn. now left.
    + rewrite IH; [reflexivity|]. intros H. apply Hn. now right.
Qed.

Lemma color_sym_not_sep l : ~ In sep (map color_sym l).
Proof.
  intros H. apply in_map_iff in H. destruct H as [c [Hc _]].
  destruct c; discriminate.
Qed.

Lemma split_on_export st :
  split_on (list_ascii_of_string (export st))
  = [map cell_sym (grid st); int_chars (score st);
     int_chars (old_score st); map color_sym (next_balls st)].
Proof.
  unfold export. rewrite list_ascii_of_string_of_list_ascii.
  rewrite split_on_field by apply cell_sym_not_sep.
  rewrite split_on_field by apply int_chars_not_sep.
  rewrite split_on_field by apply int_chars_not_sep.
  rewrite split_on_last by apply color_sym_not_sep.
  reflexivity.
Qed.

Lemma import_export st : well_formed st -> import (export st) = inl st.
Proof.
  intros [Hg Hn]. unfold import. rewrite split_on_export.
  rewrite (read_all_map sym_cell cell_sym) by apply sym_cell_sym.
  rewrite !chars_int_chars.
  rewrite (read_all_map sym_color color_sym) by apply sym_color_sym.
  rewrite Hg, Hn. simpl. now destruct st.
Qed.

(** C1. For every reachable GameState, reconstructing a board from
    the exported string gives that state again: grid, current score,
    carried score and lookahead batch. *)
Theorem import_export_roundtrip :
  forall st : GameState,
    reachable st ->
    import (export st) = inl st
    /\ forall st', import (export st) = inl st' ->
                   grid st' = grid st /\ score st' = score st
                   /\ old_score st' = old_score st
                   /\ next_balls st' = next_balls st.
Proof.
  intros st Hr. pose proof (import_export st (reachable_well_formed st Hr)) as H.
  split; [exact H|]. intros st' H'. rewrite H in H'.
  injection H' as <-. auto.
Qed.

(** The scores through a move and a spawn. *)

Lemma spawn_scores st s :
  old_score (fst (spawn st s)) = old_score st
  /\ score st <= score (fst (spawn st s)).
Proof.
  unfold spawn. destruct (place (next_balls st) (grid st) s) as [g s1].
  destruct (nextBatch s1) as [nb s2]. cbn. split; [reflexivity|lia].
Qed.

Lemma next_scores st s :
  old_score (fst (next st s)) = old_score st
  /\ score st <= score (fst (next st s)).
Proof.
  unfold next. destruct (result st =? 1).
  - cbn. split; [reflexivity|lia].
  - apply spawn_scores.
Qed.

Lemma move_scores t st st' :
  move t st = inl st' ->
  old_score st' = old_score st /\ score st <= score st'.
Proof.
  unfold move. destruct (result st =? 1).
  - intros [= <-]. split; [reflexivity|lia].
  - destruct (decode_move t) as [[src dst]|]; [|discriminate].
    destruct (hasBall (grid st) src && negb (Nat.eqb src dst)
              && existsPath (grid st) src dst); [|discriminate].
    intros [= <-]. cbn. split; [reflexivity|lia].
Qed.

Lemma fresh_old_score old s : old_score (fst (fresh old s)) = old.
Proof.
  unfold fresh. destruct (nextBatch s) as [nb s1].
  now destruct (spawn_scores
                  {| grid := repeat None cells; score := 0;
                     old_score := old; next_balls := nb |} s1).
Qed.

End LinesFacts.

(** The engine of the specification keeps the contract the plugin relies
    on. *)
Lemma LinesEngine_laws : EngineLaws LinesEngine Lines.well_formed.
Proof.
  constructor.
  - intros b g Hv. cbn [Board move next export score old_score LinesEngine]. now rewrite (LinesFacts.import_export b Hv).
  - intros old g b g'. cbn [Board move next export score old_score LinesEngine].
    pose proof (LinesFacts.fresh_well_formed
                  (match old with Some o => o | None => 0 end) g) as Hwf.
    pose proof (LinesFacts.fresh_old_score
                  (match old with Some o => o | None => 0 end) g) as Hold.
    destruct (Lines.fresh _ g) as [st g0]. cbn in Hwf, Hold |- *.
    intros [= <- <-]. now split.
  - intros t b b' Hv. cbn [Board move next export score old_score LinesEngine]. destruct (Lines.move t b) as [st|e] eqn:Hm;
      cbn; [|discriminate].
    intros [= <-]. split; [now apply (LinesFacts.move_well_formed t b)|].
    now apply (LinesFacts.move_scores t).
  - intros b g b' g' Hv. cbn [Board move next export score old_score LinesEngine].
    pose proof (LinesFacts.next_well_formed b g Hv) as Hwf.
    pose proof (LinesFacts.next_scores b g) as Hsc.
    destruct (Lines.next b g) as [st g0]. cbn in Hwf, Hsc |- *.
    intros [= <- <-]. now split.
Qed.

(** ** The database operations *)

Section DbFacts.

Lemma find_app_l {A} (p : A -> bool) l1 l2 x :
  find p l1 = Some x -> find p (l1 ++ l2) = Some x.
Proof.
  induction l1 as [|y l1 IH]; simpl; [discriminate|].
  destruct (p y); auto.
Qed.

Lemma find_app_r {A} (p : A -> bool) l1 l2 :
  find p l1 = None -> find p (l1 ++ l2) = find p l2.
Proof.
  induction l1 as [|y l1 IH]; simpl; [reflexivity|].
  destruct (p y); [discriminate|auto].
Qed.

Lemma set_board_games d a b :
  games (set_board d a b) = map (upd_row a (set_row_board b)) (games d).
Proof. reflexivity. Qed.

Lemma set_game_games d a b sc :
  games (set_game d a b sc) = map (upd_row a (set_row_game b sc)) (games d).
Proof. reflexivity. Qed.

Lemma upd_row_addr a f r :
  (forall x, g_addr (f x) = g_addr x) -> g_addr (upd_row a f r) = g_addr r.
Proof. intros Hf. unfold upd_row. destruct (String.eqb _ _); auto. Qed.

Lemma upd_row_gid a f r :
  (forall x, g_gid (f x) = g_gid x) -> g_gid (upd_row a f r) = g_gid r.
Proof. intros Hf. unfold upd_row. destruct (String.eqb _ _); auto. Qed.

Lemma map_addr_upd a f l :
  (forall x, g_addr (f x) = g_addr x) ->
  map g_addr (map (upd_row a f) l) = map g_addr l.
Proof.
  intros Hf. rewrite map_map. apply map_ext.
  intros r. now apply upd_row_addr.
Qed.

Lemma map_gid_upd a f l :
  (forall x, g_gid (f x) = g_gid x) ->
  map g_gid (map (upd_row a f) l) = map g_gid l.
Proof.
  intros Hf. rewrite map_map. apply map_ext.
  intros r. now apply upd_row_gid.
Qed.

(** The row a group resolves to is still the one it resolves to after
    an update of that row's address. *)
Lemma find_gid_upd f l gid g :
  (forall x, g_gid (f x) = g_gid x) ->
  find (fun r => g_gid r =? gid) l = Some g ->
  find (fun r => g_gid r =? gid) (map (upd_row (g_addr g) f) l)
  = Some (f g).
Proof.
  intros Hf. induction l as [|r l IH]; simpl; [discriminate|].
  rewrite upd_row_gid by assumption.
  destruct (g_gid r =? gid) eqn:Hr.
  - intros [= ->]. unfold upd_row. now rewrite String.eqb_refl.
  - exact IH.
Qed.

Lemma get_gid_set_game d gid g b sc :
  get_game_by_gid d gid = Some g ->
  get_game_by_gid (set_game d (g_addr g) b sc) gid
  = Some (set_row_game b sc g).
Proof.
  intros H. unfold get_game_by_gid. rewrite set_game_games.
  now apply find_gid_upd.
Qed.

Lemma get_gid_set_board d gid g b :
  get_game_by_gid d gid = Some g ->
  get_game_by_gid (set_board d (g_addr g) b) gid
  = Some (set_row_board b g).
Proof.
  intros H. unfold get_game_by_gid. rewrite set_board_games.
  now apply find_gid_upd.
Qed.

Lemma find_addr_upd f l a a0 :
  (forall x, g_addr (f x) = g_addr x) ->
  find (fun r => String.eqb (g_addr r) a) (map (upd_row a0 f) l)
  = option_map (upd_row a0 f) (find (fun r => String.eqb (g_addr r) a) l).
Proof.
  intros Hf. induction l as [|r l IH]; simpl; [reflexivity|].
  rewrite upd_row_addr by assumption.
  destruct (String.eqb (g_addr r) a); [reflexivity|exact IH].
Qed.

Lemma stored_score_set_board d a0 b a :
  stored_score (set_board d a0 b) a = stored_score d a.
Proof.
  unfold stored_score, get_game_by_addr. rewrite set_board_games.
  rewrite find_addr_upd by reflexivity.
  destruct (find _ (games d)) as [r|]; simpl; [|reflexivity].
  unfold upd_row. now destruct (String.eqb (g_addr r) a0).
Qed.

Lemma stored_score_set_game d a0 b sc0 a :
  stored_score (set_game d a0 b sc0) a
  = if String.eqb a a0
    then option_map (fun _ => sc0) (stored_score d a)
    else stored_score d a.
Proof.
  unfold stored_score, get_game_by_addr. rewrite set_game_games.
  rewrite find_addr_upd by reflexivity.
  destruct (find _ (games d)) as [r|] eqn:Hf; simpl.
  - apply find_some in Hf. destruct Hf as [_ Hr].
    apply String.eqb_eq in Hr. subst a. unfold upd_row.
    now destruct (String.eqb (g_addr r) a0).
  - now destruct (String.eqb a a0).
Qed.

Lemma stored_score_add_game d a0 gid b a sc :
  stored_score d a = Some sc ->
  stored_score (add_game d a0 gid b) a = Some sc.
Proof.
  unfold stored_score, get_game_by_addr. simpl.
  destruct (find _ (games d)) as [r|] eqn:Hf; [|discriminate].
  intros H. erewrite find_app_l by eassumption. exact H.
Qed.

Lemma In_find_gid l g :
  NoDup (map g_gid l) -> In g l ->
  find (fun r => g_gid r =? g_gid g) l = Some g.
Proof.
  induction l as [|r l IH]; simpl; [tauto|].
  intros Hnd Hin. inversion Hnd as [|? ? Hnot Hnd']; subst.
  destruct Hin as [->|Hin].
  - now rewrite Z.eqb_refl.
  - destruct (Z.eqb_spec (g_gid r) (g_gid g)) as [Heq|_]; [|auto].
    exfalso. apply Hnot. rewrite Heq. now apply in_map.
Qed.

Lemma In_find_addr l g :
  NoDup (map g_addr l) -> In g l ->
  find (fun r => String.eqb (g_addr r) (g_addr g)) l = Some g.
Proof.
  induction l as [|r l IH]; simpl; [tauto|].
  intros Hnd Hin. inversion Hnd as [|? ? Hnot Hnd']; subst.
  destruct Hin as [->|Hin].
  - now rewrite String.eqb_refl.
  - destruct (String.eqb_spec (g_addr r) (g_addr g)) as [Heq|_]; [|auto].
    exfalso. apply Hnot. rewrite Heq. now apply in_map.
Qed.

Lemma find_gid_fresh l gid :
  ~ In gid (map g_gid l) -> find (fun r => g_gid r =? gid) l = None.
Proof.
  induction l as [|r l IH]; simpl; [reflexivity|].
  intros Hn. destruct (Z.eqb_spec (g_gid r) gid) as [Heq|_]; [tauto|].
  apply IH. tauto.
Qed.

Lemma find_addr_none l a :
  find (fun r => String.eqb (g_addr r) a) l = None ->
  ~ In a (map g_addr l).
Proof.
  induction l as [|r l IH]; simpl; [tauto|].
  destruct (String.eqb_spec (g_addr r) a) as [_|Hne]; [discriminate|].
  intros H [Heq|Hin]; [tauto|]. now apply IH.
Qed.

Lemma scores_le_refl d : scores_le d d.
Proof. intros a sc H. exists sc. split; [exact H|lia]. Qed.

Lemma scores_le_trans d1 d2 d3 :
  scores_le d1 d2 -> scores_le d2 d3 -> scores_le d1 d3.
Proof.
  intros H12 H23 a sc H.
  destruct (H12 a sc H) as [sc2 [H2 Hle2]].
  destruct (H23 a sc2 H2) as [sc3 [H3 Hle3]].
  exists sc3. split; [exact H3|lia].
Qed.

Lemma scores_le_set_board d a b : scores_le d (set_board d a b).
Proof.
  intros x sc H. exists sc. rewrite stored_score_set_board.
  split; [exact H|lia].
Qed.

Lemma scores_le_set_game d a b sc0 :
  (forall sc, stored_score d a = Some sc -> sc <= sc0) ->
  scores_le d (set_game d a b sc0).
Proof.
  intros Hle x sc H. rewrite stored_score_set_game.
  destruct (String.eqb_spec x a) as [->|_].
  - rewrite H. simpl. exists sc0. split; [reflexivity|now apply Hle].
  - exists sc. split; [exact H|lia].
Qed.

Lemma scores_le_add_game d a gid b : scores_le d (add_game d a gid b).
Proof.
  intros x sc H. exists sc. split; [|lia].
  now apply stored_score_add_game.
Qed.

End DbFacts.

(** ** The handlers *)

Section BotFacts.
Variable U : Unicode.
Variable E : Engine.

Notation "x <- m ;; k" := (bind E m (fun x => k))
  (at level 61, m at next level, right associativity).
Notation "m ;;; k" := (bind E m (fun _ => k))
  (at level 61, right associativity).

(** Unfolds the monad, leaving the engine and database calls. *)
Ltac run :=
  cbv beta delta [bind ret raise read_db try_except_ValueError
                  new_Board call_move call_next
                  db_set_game db_set_board db_add_game replies_add] iota.

Lemma is_move_text_spec t :
  is_move_text U t = true <->
  List.length t = 4%nat /\ isalnum U t = true
  /\ isalpha U t = false /\ isdigit U t = false.
Proof.
  unfold is_move_text.
  destruct (Nat.eqb_spec (List.length t) 4) as [Hl|Hl];
    destruct (isalnum U t), (isalpha U t), (isdigit U t); simpl;
    intuition (try discriminate; try congruence).
Qed.

Lemma filter_messages_guard message :
  filter_messages U E message
  = if is_move_text U (m_text message)
    then
      game <- read_db E (fun d => get_game_by_gid d (m_chat message)) ;;
      match game with
      | None => ret E tt
      | Some game =>
        if negb (truthy (g_board game)) then ret E tt
        else
          try_except_ValueError E
            (b <- new_Board E (g_board game) None ;;
             b <- call_move E (m_text message) b ;;
             (if score E b >? g_score game
              then db_set_game E (g_addr game) (Some (export E b))
                               (score E b)
              else db_set_board E (g_addr game) (Some (export E b))) ;;;
             t <- _run_turn E (m_chat message) ;;
             replies_add E t None)
            (replies_add E "❌ Invalid move!" None)
      end
    else ret E tt.
Proof.
  unfold filter_messages, is_move_text.
  destruct (negb (Nat.eqb (List.length (m_text message)) 4)
            || negb (isalnum U (m_text message))
            || isalpha U (m_text message)
            || isdigit U (m_text message)); reflexivity.
Qed.

(** When [isalnum] characters are all letters or digits, as in ASCII,
    a text that is neither all letters nor all digits has one of
    each. *)
Lemma mixed_has_letter_and_digit t :
  isalnum U t = true ->
  (forall c, In c t -> uni_alpha U c = false -> uni_digit U c = true) ->
  isalpha U t = false -> isdigit U t = false ->
  (exists c, In c t /\ uni_alpha U c = true)
  /\ (exists c, In c t /\ uni_digit U c = true).
Proof.
  unfold isalnum, isalpha, isdigit, all_chars.
  destruct t as [|c0 t0]; [discriminate|].
  set (t := c0 :: t0). intros _ Hld Ha Hd.
  assert (Hex : forall p, forallb p t = false ->
                          exists c, In c t /\ p c = false).
  { intros p Hp.
    destruct (existsb (fun c => negb (p c)) t) eqn:Hx.
    - apply existsb_exists in Hx. destruct Hx as [c [Hc Hn]].
      exists c. split; [exact Hc|]. now destruct (p c).
    - exfalso. rewrite <- Hp in Hx. clear -Hx.
      induction t as [|x t IH]; simpl in *; [discriminate|].
      destruct (p x); simpl in *; [auto|discriminate]. }
  destruct (Hex _ Ha) as [c1 [Hc1 Hn1]].
  destruct (Hex _ Hd) as [c2 [Hc2 Hn2]].
  split.
  - exists c2. split; [exact Hc2|].
    destruct (uni_alpha U c2) eqn:Hal; [reflexivity|].
    rewrite (Hld c2 Hc2 Hal) in Hn2. discriminate.
  - exists c1. split; [exact Hc1|]. now apply Hld.
Qed.


(** C2. On a stored game with an active board, when the construction
    of the [Board] from the stored string, or the move, raises
    [ValueError], [filter_messages] writes nothing to the database,
    which stays as it was, and replies that the move is invalid. *)
Theorem filter_messages_invalid_move :
  forall (message : Message) (w : world E) (game : game_row)
         (rb : res (board E)) (g' : rng E),
    is_move_text U (m_text message) = true ->
    get_game_by_gid (w_db w) (m_chat message) = Some game ->
    truthy (g_board game) = true ->
    Board E (g_board game) None (w_rng w) = (rb, g') ->
    (rb = Raise ValueError
     \/ exists b, rb = Ok b
                  /\ move E (m_text message) b = Raise ValueError) ->
    snd (filter_messages U E message w) = Ok tt
    /\ w_db (fst (filter_messages U E message w)) = w_db w
    /\ filter is_db_write (w_log (fst (filter_messages U E message w)))
       = filter is_db_write (w_log w)
    /\ w_replies (fst (filter_messages U E message w))
       = w_replies w ++ [ {| r_text := "❌ Invalid move!";
                             r_chat := None |} ].
Proof.
  intros message w game rb g' Hm Hg Ht HB Hraise.
  rewrite filter_messages_guard, Hm. run. rewrite Hg, Ht. cbn [negb].
  rewrite HB.
  destruct Hraise as [->|[b [-> Hmv]]].
  - cbn. rewrite filter_app. cbn. now rewrite app_nil_r.
  - rewrite Hmv. cbn. rewrite !filter_app. cbn. now rewrite !app_nil_r.
Qed.


(** *** [_run_turn] *)

Lemma final_score_cases b :
  (score E b <= old_score E b /\ old_score E b < 2 * score E b
   /\ final_score E b = old_score E b + 1)
  \/ (~ (score E b <= old_score E b /\ old_score E b < 2 * score E b)
      /\ final_score E b = score E b).
Proof.
  unfold final_score, above_half.
  destruct (Z.leb_spec (score E b) (old_score E b));
    destruct (Z.ltb_spec (old_score E b) (2 * score E b)); cbn [andb];
    [left|right|right|right]; repeat split; auto; lia.
Qed.

Lemma run_turn_over gid w g b g' :
  get_game_by_gid (w_db w) gid = Some g ->
  Board E (g_board g) None (w_rng w) = (Ok b, g') ->
  result E b = 1 ->
  _run_turn E gid w
  = let w1 := with_rng g' (emit (CallBoard (g_board g) None) w) in
    if final_score E b >? old_score E b then
      (with_db (set_game (w_db w) (g_addr g) None (final_score E b))
               (emit (DbSetGame (g_addr g) None (final_score E b)) w1),
       Ok (game_over_high E (final_score E b) b))
    else
      (with_db (set_board (w_db w) (g_addr g) None)
               (emit (DbSetBoard (g_addr g) None) w1),
       Ok (game_over_plain E (final_score E b) b)).
Proof.
  intros Hg HB Hr. unfold _run_turn. run. rewrite Hg, HB, Hr. cbn.
  destruct (final_score E b >? old_score E b); reflexivity.
Qed.

Lemma run_turn_ongoing gid w g b g' :
  get_game_by_gid (w_db w) gid = Some g ->
  Board E (g_board g) None (w_rng w) = (Ok b, g') ->
  result E b <> 1 ->
  _run_turn E gid w
  = (with_rng g' (emit (CallBoard (g_board g) None) w),
     Ok (turn_text E b (g_score g))).
Proof.
  intros Hg HB Hr. unfold _run_turn. run. rewrite Hg, HB.
  apply Z.eqb_neq in Hr. now rewrite Hr.
Qed.




(** *** [lines_play] and [lines_next] *)

Lemma run_turn_reply_ongoing gid chat (f : string -> string) w g b g' :
  get_game_by_gid (w_db w) gid = Some g ->
  Board E (g_board g) None (w_rng w) = (Ok b, g') ->
  result E b <> 1 ->
  (t <- _run_turn E gid ;; replies_add E (f t) chat) w
  = (push_reply {| r_text := f (turn_text E b (g_score g)); r_chat := chat |}
       (with_rng g' (emit (CallBoard (g_board g) None) w)), Ok tt).
Proof.
  intros Hg HB Hr. unfold bind at 1.
  now rewrite (run_turn_ongoing gid w g b g' Hg HB Hr).
Qed.

(** C6. When a player who has a stored game starts a new one, the board
    is constructed as [Board(old_score=S)] with [S] the stored score and
    [lines_play] itself only stores the board, with [set_board]: every
    stored score is as before; the rest of the command is [_run_turn].
    When the board it reads back is not over, nothing else is written
    and the scores are still as before at the end. *)
Theorem lines_play_carries_stored_score :
  forall (new_gid : Z) (message : Message) (w : world E)
         (game : game_row) (b : board E) (g1 : rng E),
    truthy (get_nick (w_db w) (m_addr message)) = true ->
    get_game_by_addr (w_db w) (m_addr message) = Some game ->
    Board E None (Some (g_score game)) (w_rng w) = (Ok b, g1) ->
    let w1 :=
      with_db (set_board (w_db w) (g_addr game) (Some (export E b)))
        (emit (DbSetBoard (g_addr game) (Some (export E b)))
           (with_rng g1 (emit (CallBoard None (Some (g_score game))) w))) in
    lines_play E new_gid message w
    = (t <- _run_turn E (g_gid game) ;;
       replies_add E ("Game started!" ++ nl ++ nl ++ t)%string
                   (Some (g_gid game))) w1
    /\ (forall a, stored_score (w_db w1) a = stored_score (w_db w) a)
    /\ (forall b1 g2,
          get_game_by_gid (w_db w) (g_gid game) = Some game ->
          Board E (Some (export E b)) None g1 = (Ok b1, g2) ->
          result E b1 <> 1 ->
          w_db (fst (lines_play E new_gid message w))
          = set_board (w_db w) (g_addr game) (Some (export E b))
          /\ filter is_score_write
               (w_log (fst (lines_play E new_gid message w)))
             = filter is_score_write (w_log w)
          /\ forall a,
               stored_score (w_db (fst (lines_play E new_gid message w))) a
               = stored_score (w_db w) a).
Proof.
  intros new_gid message w game b g1 Hn Hg HB w1.
  assert (Hrun : lines_play E new_gid message w
                 = (t <- _run_turn E (g_gid game) ;;
                    replies_add E ("Game started!" ++ nl ++ nl ++ t)%string
                                (Some (g_gid game))) w1).
  { unfold lines_play. unfold bind at 1, read_db at 1. rewrite Hn.
    cbn [negb]. unfold bind at 1, read_db at 1. rewrite Hg.
    unfold bind at 1, new_Board at 1. rewrite HB.
    unfold bind at 1, db_set_board at 1. reflexivity. }
  split; [exact Hrun|]. split.
  - intros a. subst w1. cbn [w_db with_db].
    apply stored_score_set_board.
  - intros b1 g2 Hgid HB1 Hr. rewrite Hrun.
    rewrite (run_turn_reply_ongoing (g_gid game) (Some (g_gid game))
               (fun t => ("Game started!" ++ nl ++ nl ++ t)%string)
               w1 (set_row_board (Some (export E b)) game) b1 g2).
    + subst w1. cbn [fst w_db w_log with_db with_rng emit push_reply].
      repeat split.
      * rewrite !filter_app. cbn. now rewrite !app_nil_r.
      * intros a. apply stored_score_set_board.
    + subst w1. cbn [w_db with_db]. now apply get_gid_set_board.
    + subst w1. cbn [w_rng with_db with_rng emit set_row_board g_board].
      exact HB1.
    + exact Hr.
Qed.

(** C10. With an active board, [lines_next] itself only stores the
    exported board, with [set_board]: every stored score is as before,
    whatever the running score of the board after the spawn; the rest
    of the command is [_run_turn]. When the board it reads back is not
    over, nothing else is written and the scores are still as before
    at the end. *)
Theorem lines_next_stores_board_only :
  forall (message : Message) (w : world E) (game : game_row)
         (b0 b : board E) (g1 g2 : rng E),
    get_game_by_gid (w_db w) (m_chat message) = Some game ->
    truthy (g_board game) = true ->
    Board E (g_board game) None (w_rng w) = (Ok b0, g1) ->
    next E b0 g1 = (Ok b, g2) ->
    let w1 :=
      with_db (set_board (w_db w) (g_addr game) (Some (export E b)))
        (emit (DbSetBoard (g_addr game) (Some (export E b)))
           (with_rng g2 (emit CallNext
              (with_rng g1 (emit (CallBoard (g_board game) None) w))))) in
    lines_next E message w
    = (t <- _run_turn E (m_chat message) ;; replies_add E t None) w1
    /\ (forall a, stored_score (w_db w1) a = stored_score (w_db w) a)
    /\ (forall b1 g3,
          Board E (Some (export E b)) None g2 = (Ok b1, g3) ->
          result E b1 <> 1 ->
          w_db (fst (lines_next E message w))
          = set_board (w_db w) (g_addr game) (Some (export E b))
          /\ filter is_score_write (w_log (fst (lines_next E message w)))
             = filter is_score_write (w_log w)
          /\ forall a,
               stored_score (w_db (fst (lines_next E message w))) a
               = stored_score (w_db w) a).
Proof.
  intros message w game b0 b g1 g2 Hg Ht HB Hnext w1.
  assert (Hrun : lines_next E message w
                 = (t <- _run_turn E (m_chat message) ;;
                    replies_add E t None) w1).
  { unfold lines_next. unfold bind at 1, read_db at 1. rewrite Hg, Ht.
    unfold bind at 1, new_Board at 1. rewrite HB.
    unfold bind at 1, call_next at 1.
    cbn [w_rng with_rng emit]. rewrite Hnext.
    unfold bind at 1, db_set_board at 1. reflexivity. }
  split; [exact Hrun|]. split.
  - intros a. subst w1. cbn [w_db with_db].
    apply stored_score_set_board.
  - intros b1 g3 HB1 Hr. rewrite Hrun.
    rewrite (run_turn_reply_ongoing (m_chat message) None (fun t => t)
               w1 (set_row_board (Some (export E b)) game) b1 g3).
    + subst w1. cbn [fst w_db w_log with_db with_rng emit push_reply].
      repeat split.
      * rewrite !filter_app. cbn. now rewrite !app_nil_r.
      * intros a. apply stored_score_set_board.
    + subst w1. cbn [w_db with_db]. now apply get_gid_set_board.
    + subst w1. cbn [w_rng with_db with_rng emit set_row_board g_board].
      exact HB1.
    + exact Hr.
Qed.

End BotFacts.

(** ** The stored score under the engine contract *)

Section ScoreFacts.
Variable U : Unicode.
Variable E : Engine.
Variable valid : board E -> Prop.
Hypothesis laws : EngineLaws E valid.

Notation "x <- m ;; k" := (bind E m (fun x => k))
  (at level 61, m at next level, right associativity).

Lemma NoDup_snoc {A} (l : list A) a :
  NoDup l -> ~ In a l -> NoDup (l ++ [a]).
Proof.
  induction l as [|x l IH]; intros Hnd Hn; simpl.
  - constructor; [tauto|constructor].
  - inversion Hnd as [|? ? Hx Hl]; subst. constructor.
    + intros Hin. apply in_app_or in Hin. destruct Hin as [Hin|[->|[]]].
      * tauto.
      * apply Hn. now left.
    + apply IH; [exact Hl|]. intros Hin. apply Hn. now right.
Qed.

Lemma same_addr_same_row l r g :
  NoDup (map g_addr l) -> In r l -> In g l -> g_addr r = g_addr g -> r = g.
Proof.
  intros Hnd Hr Hg Heq.
  pose proof (In_find_addr l r Hnd Hr) as H1.
  pose proof (In_find_addr l g Hnd Hg) as H2.
  rewrite Heq in H1. congruence.
Qed.

Lemma get_gid_In d gid g : get_game_by_gid d gid = Some g -> In g (games d).
Proof. intros H. now apply find_some in H. Qed.

Lemma get_addr_In d a g :
  get_game_by_addr d a = Some g -> In g (games d) /\ g_addr g = a.
Proof.
  intros H. apply find_some in H. destruct H as [Hin Heq].
  split; [exact Hin|]. now apply String.eqb_eq.
Qed.

Lemma db_ok_row d g : db_ok E valid d -> In g (games d) -> row_ok E valid g.
Proof.
  intros [_ [_ Hall]] Hin. rewrite Forall_forall in Hall. now apply Hall.
Qed.

Lemma stored_score_row d g :
  db_ok E valid d -> In g (games d) ->
  stored_score d (g_addr g) = Some (g_score g).
Proof.
  intros [Hnd _] Hin. unfold stored_score, get_game_by_addr.
  now rewrite (In_find_addr _ g Hnd Hin).
Qed.

Lemma db_ok_upd d g f :
  (forall x, g_addr (f x) = g_addr x) ->
  (forall x, g_gid (f x) = g_gid x) ->
  db_ok E valid d -> In g (games d) -> row_ok E valid (f g) ->
  db_ok E valid {| games := map (upd_row (g_addr g) f) (games d);
                   nicks := nicks d |}.
Proof.
  intros Hfa Hfg [Hna [Hng Hall]] Hin Hrow. unfold db_ok. cbn [games].
  rewrite map_addr_upd, map_gid_upd by assumption.
  repeat split; try assumption.
  rewrite Forall_map, Forall_forall. intros r Hr. unfold upd_row.
  destruct (String.eqb_spec (g_addr r) (g_addr g)) as [Heq|_].
  - now rewrite (same_addr_same_row _ r g Hna Hr Hin Heq).
  - rewrite Forall_forall in Hall. now apply Hall.
Qed.

Lemma db_ok_set_board d g brd :
  db_ok E valid d -> In g (games d) ->
  row_ok E valid (set_row_board brd g) ->
  db_ok E valid (set_board d (g_addr g) brd).
Proof. intros. now apply db_ok_upd. Qed.

Lemma db_ok_set_game d g brd sc :
  db_ok E valid d -> In g (games d) ->
  row_ok E valid (set_row_game brd sc g) ->
  db_ok E valid (set_game d (g_addr g) brd sc).
Proof. intros. now apply db_ok_upd. Qed.

Lemma db_ok_add_game d a gid b :
  db_ok E valid d ->
  get_game_by_addr d a = None -> ~ In gid (map g_gid (games d)) ->
  valid b -> 0 <= Z.max (old_score E b) (score E b) ->
  db_ok E valid (add_game d a gid (export E b)).
Proof.
  intros [Hna [Hng Hall]] Ha Hgid Hv Hsc. unfold db_ok, add_game.
  cbn [games]. rewrite !map_app. cbn [map g_addr g_gid].
  repeat split.
  - apply NoDup_snoc; [exact Hna|]. now apply find_addr_none.
  - now apply NoDup_snoc.
  - apply Forall_app. split; [exact Hall|].
    constructor; [|constructor]. unfold row_ok. cbn [g_board g_score].
    exists b. auto.
Qed.

Lemma db_ok_no_games n : db_ok E valid {| games := []; nicks := n |}.
Proof. repeat split; constructor. Qed.

Lemma scores_le_set_game_row d g brd sc :
  db_ok E valid d -> In g (games d) -> g_score g <= sc ->
  scores_le d (set_game d (g_addr g) brd sc).
Proof.
  intros Hok Hin Hle. apply scores_le_set_game. intros sc0 H.
  rewrite (stored_score_row d g Hok Hin) in H. injection H as <-. exact Hle.
Qed.

(** A reply leaves the database alone. *)
Lemma then_reply_db (m : M E string) (f : string -> string) chat w :
  w_db (fst ((t <- m ;; replies_add E (f t) chat) w)) = w_db (fst (m w)).
Proof.
  unfold bind. destruct (m w) as [w1 [t|e]]; reflexivity.
Qed.

Lemma try_reply_db (body : M E unit) t chat w :
  w_db (fst (try_except_ValueError E body (replies_add E t chat) w))
  = w_db (fst (body w)).
Proof.
  unfold try_except_ValueError.
  destruct (body w) as [w1 [[]|[]]]; reflexivity.
Qed.

Lemma bind_ok {A B} (m : M E A) (k : A -> M E B) w w1 a :
  m w = (w1, Ok a) -> bind E m k w = k a w1.
Proof. intros H. unfold bind. now rewrite H. Qed.

Lemma bind_raise {A B} (m : M E A) (k : A -> M E B) w w1 e :
  m w = (w1, Raise e) -> bind E m k w = (w1, Raise e).
Proof. intros H. unfold bind. now rewrite H. Qed.

(** [_run_turn] on a row in order: the final score it may store is not
    below the stored one. *)
Lemma run_turn_safe gid w g s :
  db_ok E valid (w_db w) ->
  get_game_by_gid (w_db w) gid = Some g -> g_board g = Some s ->
  db_step_ok E valid (w_db w) (w_db (fst (_run_turn E gid w))).
Proof.
  intros Hok Hg Hs.
  pose proof (get_gid_In _ _ _ Hg) as Hin.
  pose proof (db_ok_row _ _ Hok Hin) as Hrow.
  unfold row_ok in Hrow. rewrite Hs in Hrow.
  destruct Hrow as [b [Hv [-> Hle]]].
  pose proof (law_roundtrip E valid laws b (w_rng w) Hv) as HB.
  rewrite <- Hs in HB.
  destruct (Z.eq_dec (result E b) 1) as [Hr|Hr].
  - rewrite (run_turn_over E gid w g b (w_rng w) Hg HB Hr). cbv zeta.
    destruct (Z.gtb_spec (final_score E b) (old_score E b)) as [Hgt|Hngt];
      cbn [fst w_db with_db].
    + split.
      * apply db_ok_set_game; auto. exact I.
      * apply scores_le_set_game_row; auto.
        destruct (final_score_cases E b) as [[H1 [H2 H3]]|[H1 H3]]; lia.
    + split.
      * apply db_ok_set_board; auto. exact I.
      * apply scores_le_set_board.
  - rewrite (run_turn_ongoing E gid w g b (w_rng w) Hg HB Hr).
    cbn [fst w_db with_rng emit]. split; [exact Hok|apply scores_le_refl].
Qed.

(** After a handler has stored the board [b] for the row [g] its group
    resolves to, [_run_turn] keeps the database in order and the scores
    from falling. *)
Lemma stored_then_run_turn gid (w w1 : world E) g b sc :
  db_ok E valid (w_db w) ->
  get_game_by_gid (w_db w) gid = Some g ->
  valid b ->
  sc <= Z.max (old_score E b) (score E b) ->
  g_score g <= sc ->
  (w_db w1 = set_game (w_db w) (g_addr g) (Some (export E b)) sc
   \/ (sc = g_score g
       /\ w_db w1 = set_board (w_db w) (g_addr g) (Some (export E b)))) ->
  db_step_ok E valid (w_db w) (w_db (fst (_run_turn E gid w1))).
Proof.
  intros Hok Hg Hv Hmax Hle Hw1.
  pose proof (get_gid_In _ _ _ Hg) as Hin.
  assert (H1 : db_ok E valid (w_db w1) /\ scores_le (w_db w) (w_db w1)
               /\ exists g1, get_game_by_gid (w_db w1) gid = Some g1
                             /\ g_board g1 = Some (export E b)).
  { destruct Hw1 as [->|[-> ->]].
    - split; [|split].
      + apply db_ok_set_game; auto. exists b. auto.
      + now apply scores_le_set_game_row.
      + eexists. split; [now apply get_gid_set_game|reflexivity].
    - split; [|split].
      + apply db_ok_set_board; auto. exists b. auto.
      + apply scores_le_set_board.
      + eexists. split; [now apply get_gid_set_board|reflexivity]. }
  destruct H1 as [Hok1 [Hle1 [g1 [Hg1 Hb1]]]].
  destruct (run_turn_safe gid w1 g1 _ Hok1 Hg1 Hb1) as [Hok2 Hle2].
  split; [exact Hok2|]. eapply scores_le_trans; eassumption.
Qed.

Ltac unchanged Hok := split; [exact Hok|apply scores_le_refl].

Lemma stored_board_reads_back d g s (r : rng E) :
  db_ok E valid d -> In g (games d) -> g_board g = Some s ->
  exists b, valid b /\ s = export E b
            /\ g_score g <= Z.max (old_score E b) (score E b)
            /\ Board E (Some s) None r = (Ok b, r).
Proof.
  intros Hok Hin Hs. pose proof (db_ok_row _ _ Hok Hin) as Hrow.
  unfold row_ok in Hrow. rewrite Hs in Hrow.
  destruct Hrow as [b [Hv [-> Hle]]]. exists b. repeat split; auto.
  now apply (law_roundtrip E valid laws).
Qed.

Lemma filter_messages_safe message w :
  db_ok E valid (w_db w) ->
  db_step_ok E valid (w_db w) (w_db (fst (filter_messages U E message w))).
Proof.
  intros Hok. rewrite filter_messages_guard.
  destruct (is_move_text U (m_text message)); [|unchanged Hok].
  unfold bind at 1, read_db at 1.
  destruct (get_game_by_gid (w_db w) (m_chat message)) as [game|] eqn:Hg;
    [|unchanged Hok].
  destruct (g_board game) as [s|] eqn:Hb; [|unchanged Hok].
  destruct (truthy (Some s)); cbn [negb]; [|unchanged Hok].
  rewrite try_reply_db.
  pose proof (get_gid_In _ _ _ Hg) as Hin.
  destruct (stored_board_reads_back _ _ _ (w_rng w) Hok Hin Hb)
    as [b0 [Hv0 [Hs [Hle0 HB]]]].
  rewrite (bind_ok _ _ w
             (with_rng (w_rng w) (emit (CallBoard (Some s) None) w)) b0)
    by (unfold new_Board; now rewrite HB).
  destruct (move E (m_text message) b0) as [b|e] eqn:Hmv.
  - destruct (law_move E valid laws _ _ _ Hv0 Hmv) as [Hv [Hold Hsc]].
    rewrite (bind_ok _ _ _
               (emit (CallMove (m_text message))
                  (with_rng (w_rng w) (emit (CallBoard (Some s) None) w))) b)
      by (unfold call_move; now rewrite Hmv).
    destruct (Z.gtb_spec (score E b) (g_score game)) as [Hgt|Hngt].
    + erewrite bind_ok by reflexivity.
      rewrite (then_reply_db _ (fun t => t)).
      apply stored_then_run_turn with (g := game) (b := b) (sc := score E b);
        auto; try lia.
    + erewrite bind_ok by reflexivity.
      rewrite (then_reply_db _ (fun t => t)).
      apply stored_then_run_turn
        with (g := game) (b := b) (sc := g_score game); auto; try lia.
  - erewrite bind_raise by (unfold call_move; now rewrite Hmv).
    cbn [fst w_db emit with_rng]. unchanged Hok.
Qed.

Lemma lines_next_safe message w :
  db_ok E valid (w_db w) ->
  db_step_ok E valid (w_db w) (w_db (fst (lines_next E message w))).
Proof.
  intros Hok. unfold lines_next.
  unfold bind at 1, read_db at 1.
  destruct (get_game_by_gid (w_db w) (m_chat message)) as [game|] eqn:Hg;
    [|unchanged Hok].
  destruct (g_board game) as [s|] eqn:Hb; [|unchanged Hok].
  destruct (truthy (Some s)); [|unchanged Hok].
  pose proof (get_gid_In _ _ _ Hg) as Hin.
  destruct (stored_board_reads_back _ _ _ (w_rng w) Hok Hin Hb)
    as [b0 [Hv0 [Hs [Hle0 HB]]]].
  rewrite (bind_ok _ _ w
             (with_rng (w_rng w) (emit (CallBoard (Some s) None) w)) b0)
    by (unfold new_Board; now rewrite HB).
  destruct (next E b0 (w_rng w)) as [[b|e] g2] eqn:Hnx.
  - destruct (law_next E valid laws _ _ _ _ Hv0 Hnx) as [Hv [Hold Hsc]].
    erewrite bind_ok
      by (unfold call_next; cbn [w_rng with_rng emit]; now rewrite Hnx).
    erewrite bind_ok by reflexivity.
    rewrite (then_reply_db _ (fun t => t)).
    apply stored_then_run_turn
      with (g := game) (b := b) (sc := g_score game); auto; try lia.
  - erewrite bind_raise
      by (unfold call_next; cbn [w_rng with_rng emit]; now rewrite Hnx).
    cbn [fst w_db emit with_rng]. unchanged Hok.
Qed.

Lemma lines_repeat_safe message w :
  db_ok E valid (w_db w) ->
  db_step_ok E valid (w_db w) (w_db (fst (lines_repeat E message w))).
Proof.
  intros Hok. unfold lines_repeat.
  unfold bind at 1, read_db at 1.
  destruct (get_game_by_addr (w_db w) (m_addr message)) as [game|] eqn:Hg;
    [|unchanged Hok].
  destruct (g_board game) as [s|] eqn:Hb; [|unchanged Hok].
  destruct (truthy (Some s)); [|unchanged Hok].
  destruct (get_addr_In _ _ _ Hg) as [Hin _].
  rewrite (then_reply_db _ (fun t => t)).
  apply run_turn_safe with (g := game) (s := s); auto.
  destruct Hok as [_ [Hng _]]. now apply In_find_gid.
Qed.

Lemma lines_play_safe new_gid message w :
  db_ok E valid (w_db w) ->
  ~ In new_gid (map g_gid (games (w_db w))) ->
  db_step_ok E valid (w_db w) (w_db (fst (lines_play E new_gid message w))).
Proof.
  intros Hok Hfresh. unfold lines_play.
  unfold bind at 1, read_db at 1.
  destruct (truthy (get_nick (w_db w) (m_addr message))); cbn [negb];
    [|unchanged Hok].
  unfold bind at 1, read_db at 1.
  destruct (get_game_by_addr (w_db w) (m_addr message)) as [game|] eqn:Hg.
  - destruct (get_addr_In _ _ _ Hg) as [Hin _].
    destruct (Board E None (Some (g_score game)) (w_rng w))
      as [[b|e] g1] eqn:HB.
    + destruct (law_fresh E valid laws _ _ _ _ HB) as [Hv Hold].
      erewrite bind_ok by (unfold new_Board; now rewrite HB).
      erewrite bind_ok by reflexivity.
      rewrite then_reply_db.
      apply stored_then_run_turn
        with (g := game) (b := b) (sc := g_score game); auto; try lia.
      destruct Hok as [_ [Hng _]]. now apply In_find_gid.
    + erewrite bind_raise by (unfold new_Board; now rewrite HB).
      cbn [fst w_db emit with_rng]. unchanged Hok.
  - destruct (Board E None None (w_rng w)) as [[b|e] g1] eqn:HB.
    + destruct (law_fresh E valid laws _ _ _ _ HB) as [Hv Hold].
      erewrite bind_ok by (unfold new_Board; now rewrite HB).
      erewrite bind_ok by reflexivity.
      rewrite then_reply_db.
      match goal with
      | |- context [_run_turn E new_gid ?x] => set (w1 := x)
      end.
      assert (Hok1 : db_ok E valid (w_db w1))
        by (apply db_ok_add_game; auto; lia).
      assert (Hg1 : get_game_by_gid (w_db w1) new_gid
                    = Some {| g_addr := m_addr message; g_gid := new_gid;
                              g_board := Some (export E b); g_score := 0 |}).
      { unfold get_game_by_gid, w1, add_game. cbn [w_db with_db games].
        rewrite find_app_r by now apply find_gid_fresh.
        cbn. now rewrite Z.eqb_refl. }
      destruct (run_turn_safe new_gid w1 _ (export E b) Hok1 Hg1 eq_refl)
        as [Hok2 Hle2].
      split; [exact Hok2|].
      eapply scores_le_trans; [|exact Hle2]. apply scores_le_add_game.
    + erewrite bind_raise by (unfold new_Board; now rewrite HB).
      cbn [fst w_db emit with_rng]. unchanged Hok.
Qed.

(** *** The score writes in the log *)

Lemma then_reply_log (m : M E string) (f : string -> string) chat w :
  w_log (fst ((t <- m ;; replies_add E (f t) chat) w)) = w_log (fst (m w)).
Proof.
  unfold bind. destruct (m w) as [w1 [t|e]]; reflexivity.
Qed.

Lemma try_reply_log (body : M E unit) t chat w :
  w_log (fst (try_except_ValueError E body (replies_add E t chat) w))
  = w_log (fst (body w)).
Proof.
  unfold try_except_ValueError.
  destruct (body w) as [w1 [[]|[]]]; reflexivity.
Qed.

Ltac log_in H :=
  repeat (apply in_app_or in H; destruct H as [H|H]);
  try (destruct H as [<-|[]]).

Lemma run_turn_log gid w e :
  In e (w_log (fst (_run_turn E gid w))) ->
  In e (w_log w) \/ forall op d, score_write_ok E op d e.
Proof.
  unfold _run_turn. unfold bind at 1, read_db at 1.
  destruct (get_game_by_gid (w_db w) gid) as [g|]; [|now left].
  destruct (Board E (g_board g) None (w_rng w)) as [[b|e0] g1] eqn:HB.
  - erewrite bind_ok by (unfold new_Board; now rewrite HB).
    destruct (result E b =? 1).
    + destruct (Z.gtb_spec (final_score E b) (old_score E b)) as [Hgt|Hle];
        cbn; intros H; log_in H; auto; right; intros op d; cbn [score_write_ok]; try exact I.
      exists b. split; [reflexivity|lia].
    + cbn. intros H. log_in H; auto. right. intros op d. exact I.
  - erewrite bind_raise by (unfold new_Board; now rewrite HB).
    cbn. intros H. log_in H; auto. right. intros op d. exact I.
Qed.

Lemma run_turn_log_after gid (w w1 : world E) op e :
  (forall x, In x (w_log w1) ->
             In x (w_log w) \/ score_write_ok E op (w_db w) x) ->
  In e (w_log (fst (_run_turn E gid w1))) ->
  In e (w_log w) \/ score_write_ok E op (w_db w) e.
Proof.
  intros Hpre H. apply run_turn_log in H. destruct H as [H|H]; auto.
Qed.

Lemma filter_messages_log message w e :
  In e (w_log (fst (filter_messages U E message w))) ->
  In e (w_log w) \/ score_write_ok E (OpFilter message) (w_db w) e.
Proof.
  rewrite filter_messages_guard.
  destruct (is_move_text U (m_text message)); [|now left].
  unfold bind at 1, read_db at 1.
  destruct (get_game_by_gid (w_db w) (m_chat message)) as [game|] eqn:Hg;
    [|now left].
  destruct (negb (truthy (g_board game))); [now left|].
  rewrite try_reply_log.
  destruct (Board E (g_board game) None (w_rng w)) as [[b0|e0] g1] eqn:HB.
  - erewrite bind_ok by (unfold new_Board; now rewrite HB).
    destruct (move E (m_text message) b0) as [b|e1] eqn:Hmv.
    + erewrite bind_ok by (unfold call_move; now rewrite Hmv).
      destruct (Z.gtb_spec (score E b) (g_score game)) as [Hgt|Hle];
        (erewrite bind_ok by reflexivity);
        rewrite (then_reply_log _ (fun t => t));
        apply run_turn_log_after; cbn; intros x H; log_in H; auto;
        right; cbn; auto.
      exists message, game. repeat split; auto.
    + erewrite bind_raise by (unfold call_move; now rewrite Hmv).
      cbn. intros H. log_in H; auto; right; exact I.
  - erewrite bind_raise by (unfold new_Board; now rewrite HB).
    cbn. intros H. log_in H; auto; right; exact I.
Qed.

Lemma lines_next_log message w e :
  In e (w_log (fst (lines_next E message w))) ->
  In e (w_log w) \/ score_write_ok E (OpNext message) (w_db w) e.
Proof.
  unfold lines_next. unfold bind at 1, read_db at 1.
  destruct (get_game_by_gid (w_db w) (m_chat message)) as [game|] eqn:Hg;
    [|now left].
  destruct (truthy (g_board game)); [|now left].
  destruct (Board E (g_board game) None (w_rng w)) as [[b0|e0] g1] eqn:HB.
  - erewrite bind_ok by (unfold new_Board; now rewrite HB).
    destruct (next E b0 g1) as [[b|e1] g2] eqn:Hnx.
    + erewrite bind_ok
        by (unfold call_next; cbn [w_rng with_rng emit]; now rewrite Hnx).
      erewrite bind_ok by reflexivity.
      rewrite (then_reply_log _ (fun t => t)).
      apply run_turn_log_after. cbn. intros x H. log_in H; auto;
        right; exact I.
    + erewrite bind_raise
        by (unfold call_next; cbn [w_rng with_rng emit]; now rewrite Hnx).
      cbn. intros H. log_in H; auto; right; exact I.
  - erewrite bind_raise by (unfold new_Board; now rewrite HB).
    cbn. intros H. log_in H; auto; right; exact I.
Qed.

Lemma lines_repeat_log message w e :
  In e (w_log (fst (lines_repeat E message w))) ->
  In e (w_log w) \/ score_write_ok E (OpRepeat message) (w_db w) e.
Proof.
  unfold lines_repeat. unfold bind at 1, read_db at 1.
  destruct (get_game_by_addr (w_db w) (m_addr message)) as [game|];
    [|now left].
  destruct (truthy (g_board game)); [|now left].
  rewrite (then_reply_log _ (fun t => t)).
  apply run_turn_log_after. auto.
Qed.

Lemma lines_play_log new_gid message w e :
  In e (w_log (fst (lines_play E new_gid message w))) ->
  In e (w_log w) \/ score_write_ok E (OpPlay new_gid message) (w_db w) e.
Proof.
  unfold lines_play. unfold bind at 1, read_db at 1.
  destruct (negb (truthy (get_nick (w_db w) (m_addr message))));
    [now left|].
  unfold bind at 1, read_db at 1.
  destruct (get_game_by_addr (w_db w) (m_addr message)) as [game|].
  - destruct (Board E None (Some (g_score game)) (w_rng w))
      as [[b|e0] g1] eqn:HB.
    + erewrite bind_ok by (unfold new_Board; now rewrite HB).
      erewrite bind_ok by reflexivity.
      rewrite then_reply_log.
      apply run_turn_log_after. cbn. intros x H. log_in H; auto;
        right; exact I.
    + erewrite bind_raise by (unfold new_Board; now rewrite HB).
      cbn. intros H. log_in H; auto; right; exact I.
  - destruct (Board E None None (w_rng w)) as [[b|e0] g1] eqn:HB.
    + erewrite bind_ok by (unfold new_Board; now rewrite HB).
      erewrite bind_ok by reflexivity.
      rewrite then_reply_log.
      apply run_turn_log_after. cbn. intros x H. log_in H; auto;
        right; exact I.
    + erewrite bind_raise by (unfold new_Board; now rewrite HB).
      cbn. intros H. log_in H; auto; right; exact I.
Qed.


End ScoreFacts.

(** ** Concrete runs

    The theorems at sample inputs, with the engine of the specification
    and the Latin-1 character classes. *)

Lemma import_export_roundtrip_witness :
  Lines.reachable st_started
  /\ Lines.import (Lines.export st_started) = inl st_started.
Proof.
  assert (H : Lines.reachable st_started).
  { apply (Lines.reach_import board_started). vm_compute. reflexivity. }
  split; [exact H|].
  exact (proj1 (LinesFacts.import_export_roundtrip st_started H)).
Defined.


(** Four characters that are numeric without being digits pass the test
    as well: the text is alphanumeric, not all letters, not all digits. *)
Example halves_pass_the_filter :
  is_move_text latin1 text_halves = true
  /\ In (CallMove text_halves)
        (w_log (fst (filter_messages latin1 LinesEngine (msg text_halves)
                       (world0 (db_with (Some board_started) 42) 5%N)))).
Proof. split; [reflexivity|]. vm_compute. tauto. Qed.

Lemma filter_messages_invalid_move_witness :
  let w := world0 (db_with (Some board_started) 42) 5%N in
  let r := filter_messages latin1 LinesEngine (msg text_a1b2) w in
  snd r = Ok tt
  /\ w_db (fst r) = db_with (Some board_started) 42
  /\ filter is_db_write (w_log (fst r)) = []
  /\ w_replies (fst r)
     = [ {| r_text := "❌ Invalid move!"; r_chat := None |} ].
Proof.
  apply (filter_messages_invalid_move latin1 LinesEngine (msg text_a1b2)
           (world0 (db_with (Some board_started) 42) 5%N)
           (row_with (Some board_started) 42) (Ok st_started) 5%N).
  - reflexivity.
  - reflexivity.
  - reflexivity.
  - vm_compute. reflexivity.
  - right. exists st_started. split; [reflexivity|]. vm_compute. reflexivity.
Defined.





Lemma lines_play_carries_stored_score_witness :
  let w := world0 (db_with (Some board_over_50) 42) 5%N in
  let r := lines_play LinesEngine 9 (msg text_c6a1) w in
  Lines.old_score st_fresh = 42
  /\ w_db (fst r) = db_with (Some (Lines.export st_fresh)) 42
  /\ filter is_score_write (w_log (fst r)) = []
  /\ stored_score (w_db (fst r)) alice = Some 42.
Proof.
  destruct (lines_play_carries_stored_score LinesEngine 9 (msg text_c6a1)
              (world0 (db_with (Some board_over_50) 42) 5%N)
              (row_with (Some board_over_50) 42) st_fresh rng_fresh)
    as [_ [_ H]].
  - reflexivity.
  - reflexivity.
  - vm_compute. reflexivity.
  - destruct (H st_fresh rng_fresh) as [Hdb [Hlog Hsc]].
    + reflexivity.
    + vm_compute. reflexivity.
    + vm_compute. discriminate.
    + cbv zeta. rewrite Hlog, (Hsc alice). repeat split.
Defined.

Lemma lines_next_stores_board_only_witness :
  let w := world0 (db_with (Some board_crowded) 0) 5%N in
  let r := lines_next LinesEngine (msg text_c6a1) w in
  Lines.score st_spawned = 5
  /\ w_db (fst r) = db_with (Some (Lines.export st_spawned)) 0
  /\ filter is_score_write (w_log (fst r)) = []
  /\ stored_score (w_db (fst r)) alice = Some 0.
Proof.
  destruct (lines_next_stores_board_only LinesEngine (msg text_c6a1)
              (world0 (db_with (Some board_crowded) 0) 5%N)
              (row_with (Some board_crowded) 0)
              st_crowded st_spawned 5%N rng_spawned)
    as [_ [_ H]].
  - reflexivity.
  - reflexivity.
  - vm_compute. reflexivity.
  - vm_compute. reflexivity.
  - destruct (H st_spawned rng_spawned) as [Hdb [Hlog Hsc]].
    + vm_compute. reflexivity.
    + vm_compute. discriminate.
    + cbv zeta. rewrite Hlog, (Hsc alice). repeat split.
Defined.

Lemma db_with_crowded_ok :
  db_ok LinesEngine Lines.well_formed (db_with (Some board_crowded) 0).
Proof.
  split; [|split].
  - constructor; [intros []|constructor].
  - constructor; [intros []|constructor].
  - constructor; [|constructor].
    exists st_crowded. split; [|split].
    + split; reflexivity.
    + vm_compute. reflexivity.
    + vm_compute. discriminate.
Defined.


(** ** What every operation keeps and what it may call *)

Section StepFacts.
Variable U : Unicode.
Variable E : Engine.

Lemma steps_ret {A} (R : world E -> world E -> Prop) (a : A) :
  (forall w, R w w) -> steps R (ret E a).
Proof. intros Hr w. apply Hr. Qed.

Lemma steps_raise {A} (R : world E -> world E -> Prop) e :
  (forall w, R w w) -> steps R (@raise E A e).
Proof. intros Hr w. apply Hr. Qed.

Lemma steps_read_db {A} (R : world E -> world E -> Prop) (f : DB -> A) :
  (forall w, R w w) -> steps R (read_db E f).
Proof. intros Hr w. apply Hr. Qed.

Lemma steps_bind {A B} (R : world E -> world E -> Prop)
      (m : M E A) (k : A -> M E B) :
  (forall w1 w2 w3, R w1 w2 -> R w2 w3 -> R w1 w3) ->
  steps R m -> (forall a, steps R (k a)) -> steps R (bind E m k).
Proof.
  intros Ht Hm Hk w. unfold bind. specialize (Hm w).
  destruct (m w) as [w1 [a|e]]; cbn in *; [|exact Hm].
  eapply Ht; [exact Hm|apply Hk].
Qed.

Lemma steps_try {A} (R : world E -> world E -> Prop) (body handler : M E A) :
  (forall w1 w2 w3, R w1 w2 -> R w2 w3 -> R w1 w3) ->
  steps R body -> steps R handler ->
  steps R (try_except_ValueError E body handler).
Proof.
  intros Ht Hb Hh w. unfold try_except_ValueError. specialize (Hb w).
  destruct (body w) as [w1 [a|[]]]; cbn in *; try exact Hb.
  eapply Ht; [exact Hb|apply Hh].
Qed.

(** *** Rows *)

Lemma map_key_upd a f l :
  (forall x, row_key (f x) = row_key x) ->
  map row_key (map (upd_row a f) l) = map row_key l.
Proof.
  intros Hf. rewrite map_map. apply map_ext. intros r. unfold upd_row.
  destruct (String.eqb (g_addr r) a); auto.
Qed.

Lemma same_rows_refl d : same_rows d d.
Proof. split; reflexivity. Qed.

Lemma same_rows_trans d1 d2 d3 :
  same_rows d1 d2 -> same_rows d2 d3 -> same_rows d1 d3.
Proof. intros [H1 H2] [H3 H4]. split; congruence. Qed.

Lemma same_rows_set_game d a b sc : same_rows d (set_game d a b sc).
Proof. split; [reflexivity|]. now apply map_key_upd. Qed.

Lemma same_rows_set_board d a b : same_rows d (set_board d a b).
Proof. split; [reflexivity|]. now apply map_key_upd. Qed.

Lemma keeps_rows_refl (w : world E) : keeps_rows w w.
Proof. apply same_rows_refl. Qed.

Lemma keeps_rows_trans (w1 w2 w3 : world E) :
  keeps_rows w1 w2 -> keeps_rows w2 w3 -> keeps_rows w1 w3.
Proof. apply same_rows_trans. Qed.

Ltac rows_prim :=
  first
    [ apply steps_ret; exact keeps_rows_refl
    | apply steps_raise; exact keeps_rows_refl
    | apply steps_read_db; exact keeps_rows_refl
    | intro; unfold keeps_rows, new_Board; destruct (Board E _ _ _);
      apply same_rows_refl
    | intro; unfold keeps_rows, call_next; destruct (next E _ _);
      apply same_rows_refl
    | intro; unfold keeps_rows; apply same_rows_refl
    | intro; unfold keeps_rows; apply same_rows_set_game
    | intro; unfold keeps_rows; apply same_rows_set_board ].

Ltac step_through tr known prim :=
  repeat first
    [ known
    | apply steps_bind; [exact tr| |intros ?]
    | apply steps_try; [exact tr| | ]
    | match goal with
      | |- steps _ (match ?x with _ => _ end) => destruct x
      end
    | progress cbv zeta
    | prim ].

Lemma run_turn_keeps_rows gid : steps keeps_rows (_run_turn E gid).
Proof. unfold _run_turn. step_through keeps_rows_trans fail rows_prim. Qed.

Lemma filter_messages_keeps_rows m :
  steps keeps_rows (filter_messages U E m).
Proof.
  unfold filter_messages.
  step_through keeps_rows_trans ltac:(apply run_turn_keeps_rows) rows_prim.
Qed.

Lemma lines_next_keeps_rows m : steps keeps_rows (lines_next E m).
Proof.
  unfold lines_next.
  step_through keeps_rows_trans ltac:(apply run_turn_keeps_rows) rows_prim.
Qed.

Lemma lines_repeat_keeps_rows m : steps keeps_rows (lines_repeat E m).
Proof.
  unfold lines_repeat.
  step_through keeps_rows_trans ltac:(apply run_turn_keeps_rows) rows_prim.
Qed.

Lemma then_reply_keeps_rows (m : M E string) f chat :
  steps keeps_rows m ->
  steps keeps_rows (bind E m (fun t => replies_add E (f t) chat)).
Proof.
  intros Hm. step_through keeps_rows_trans ltac:(exact Hm) rows_prim.
Qed.

(** X1. No operation changes the nicks, removes a row, reorders the rows
    or changes the player or the group of a row; the only row ever added
    is the one [lines_play] appends for a player who has none, with the
    sender's address and the new group. *)
Theorem operations_keep_rows :
  forall (op : operation) (w : world E),
    nicks (w_db (fst (run_op U E op w))) = nicks (w_db w)
    /\ (map row_key (games (w_db (fst (run_op U E op w))))
        = map row_key (games (w_db w))
        \/ exists gid m,
             op = OpPlay gid m
             /\ get_game_by_addr (w_db w) (m_addr m) = None
             /\ map row_key (games (w_db (fst (run_op U E op w))))
                = map row_key (games (w_db w)) ++ [(m_addr m, gid)]).
Proof.
  intros op w.
  assert (Hsame : forall w', keeps_rows w w' ->
            nicks (w_db w') = nicks (w_db w)
            /\ (map row_key (games (w_db w')) = map row_key (games (w_db w))
                \/ exists gid m,
                     op = OpPlay gid m
                     /\ get_game_by_addr (w_db w) (m_addr m) = None
                     /\ map row_key (games (w_db w'))
                        = map row_key (games (w_db w)) ++ [(m_addr m, gid)])).
  { intros w' [H1 H2]. split; [exact H1|now left]. }
  destruct op as [m|gid m|m|m]; cbn [run_op].
  - apply Hsame, filter_messages_keeps_rows.
  - remember (fst (lines_play E gid m w)) as w' eqn:Hw'. revert Hw'.
    unfold lines_play. unfold bind at 1, read_db at 1.
    destruct (negb (truthy (get_nick (w_db w) (m_addr m))));
      [intros ->; apply Hsame, same_rows_refl|].
    unfold bind at 1, read_db at 1.
    destruct (get_game_by_addr (w_db w) (m_addr m)) as [game|] eqn:Hg.
    + intros ->. apply Hsame.
      match goal with
      | |- keeps_rows w (fst (?c w)) => assert (Hc : steps keeps_rows c)
      end.
      { step_through keeps_rows_trans ltac:(apply run_turn_keeps_rows)
                     rows_prim. }
      apply Hc.
    + unfold bind at 1, new_Board at 1.
      destruct (Board E None None (w_rng w)) as [[b|e] g1];
        [|intros ->; apply Hsame, same_rows_refl].
      unfold bind at 1, db_add_game at 1. intros ->.
      match goal with
      | |- context [bind E (_run_turn E gid) ?k ?x] =>
        destruct (then_reply_keeps_rows (_run_turn E gid)
                    (fun t => ("Hello " ++ m_name m
                               ++ ", in this group you can play Color Lines."
                               ++ nl ++ nl ++ t)%string) (Some gid)
                    (run_turn_keeps_rows gid) x) as [H1 H2]
      end.
      cbn [w_db with_db emit with_rng add_game games nicks] in H1, H2.
      split; [exact H1|]. right. exists gid, m.
      split; [reflexivity|]. split; [exact Hg|].
      refine (eq_trans H2 _). rewrite map_app. reflexivity.
  - apply Hsame, lines_next_keeps_rows.
  - apply Hsame, lines_repeat_keeps_rows.
Qed.

(** *** Calls *)

Lemma logs_only_refl P (w : world E) : logs_only P w w.
Proof. intros e He. now left. Qed.

Lemma logs_only_trans P (w1 w2 w3 : world E) :
  logs_only P w1 w2 -> logs_only P w2 w3 -> logs_only P w1 w3.
Proof.
  intros H12 H23 e He. destruct (H23 e He) as [H|H]; [|now right].
  now apply H12.
Qed.

Lemma logs_only_emit P e (w w' : world E) :
  P e -> w_log w' = w_log w ++ [e] -> logs_only P w w'.
Proof.
  intros HP Hl x Hx. rewrite Hl in Hx. apply in_app_or in Hx.
  destruct Hx as [Hx|[<-|[]]]; auto.
Qed.

Lemma logs_new_Board P s old :
  P (CallBoard s old) -> steps (logs_only P) (new_Board E s old).
Proof.
  intros HP w. unfold new_Board. destruct (Board E s old (w_rng w)).
  now apply (logs_only_emit P (CallBoard s old)).
Qed.

Lemma logs_call_move P t b :
  P (CallMove t) -> steps (logs_only P) (call_move E t b).
Proof. intros HP w. now apply (logs_only_emit P (CallMove t)). Qed.

Lemma logs_call_next P b :
  P CallNext -> steps (logs_only P) (call_next E b).
Proof.
  intros HP w. unfold call_next. destruct (next E b (w_rng w)).
  now apply (logs_only_emit P CallNext).
Qed.

Lemma logs_db_set_game P a b sc :
  P (DbSetGame a b sc) -> steps (logs_only P) (db_set_game E a b sc).
Proof. intros HP w. now apply (logs_only_emit P (DbSetGame a b sc)). Qed.

Lemma logs_db_set_board P a b :
  P (DbSetBoard a b) -> steps (logs_only P) (db_set_board E a b).
Proof. intros HP w. now apply (logs_only_emit P (DbSetBoard a b)). Qed.

Lemma logs_db_add_game P a gid b :
  P (DbAddGame a gid b) -> steps (logs_only P) (db_add_game E a gid b).
Proof. intros HP w. now apply (logs_only_emit P (DbAddGame a gid b)). Qed.

Lemma logs_replies_add P t chat : steps (logs_only P) (replies_add E t chat).
Proof. intros w e He. left. exact He. Qed.

Ltac call_side :=
  cbn [call_ok];
  first [ exact I
        | intros ?; discriminate
        | eexists; split; reflexivity
        | eexists; reflexivity
        | split; [reflexivity|eexists; eexists; reflexivity] ].

Ltac logs_prim :=
  first
    [ apply steps_ret; apply logs_only_refl
    | apply steps_raise; apply logs_only_refl
    | apply steps_read_db; apply logs_only_refl
    | apply logs_replies_add
    | apply logs_new_Board; call_side
    | apply logs_call_move; call_side
    | apply logs_call_next; call_side
    | apply logs_db_set_game; call_side
    | apply logs_db_set_board; call_side
    | apply logs_db_add_game; call_side ].

Lemma run_turn_calls op gid : steps (logs_only (call_ok op)) (_run_turn E gid).
Proof.
  unfold _run_turn.
  step_through (logs_only_trans (call_ok op)) fail logs_prim.
Qed.


(** *** Replies *)

Lemma once_replies_add t chat : replies_once (replies_add E t chat).
Proof. intros w. cbn. eexists. reflexivity. Qed.

Lemma once_bind {A B} (m : M E A) (k : A -> M E B) :
  quiet m -> (forall a, replies_once (k a)) -> replies_once (bind E m k).
Proof.
  intros Hm Hk w. unfold bind. specialize (Hm w). cbv beta in Hm.
  destruct (m w) as [w1 [a|e]]; cbn in *; [|exact Hm].
  specialize (Hk a w1). rewrite Hm in Hk. exact Hk.
Qed.

Lemma once_try {A} (body handler : M E A) :
  replies_once body -> replies_once handler ->
  replies_once (try_except_ValueError E body handler).
Proof.
  intros Hb Hh w. unfold try_except_ValueError. specialize (Hb w).
  destruct (body w) as [w1 [a|[]]]; cbn in *; try exact Hb.
  specialize (Hh w1). rewrite Hb in Hh. exact Hh.
Qed.

Lemma at_most_once_of_once {A} (m : M E A) :
  replies_once m -> replies_at_most_once m.
Proof.
  intros H w. specialize (H w). destruct (snd (m w)); auto.
Qed.

Lemma at_most_once_ret {A} (a : A) : replies_at_most_once (ret E a).
Proof. intros w. cbn. now left. Qed.

Lemma at_most_once_bind {A B} (m : M E A) (k : A -> M E B) :
  quiet m -> (forall a, replies_at_most_once (k a)) ->
  replies_at_most_once (bind E m k).
Proof.
  intros Hm Hk w. unfold bind. specialize (Hm w). cbv beta in Hm.
  destruct (m w) as [w1 [a|e]]; cbn in *; [|exact Hm].
  specialize (Hk a w1). rewrite Hm in Hk. exact Hk.
Qed.

Ltac quiet_prim :=
  first
    [ apply steps_ret; reflexivity
    | apply steps_raise; reflexivity
    | apply steps_read_db; reflexivity
    | intro; unfold new_Board; destruct (Board E _ _ _); reflexivity
    | intro; unfold call_next; destruct (next E _ _); reflexivity
    | intro; reflexivity ].

Lemma quiet_trans (w1 w2 w3 : world E) :
  w_replies w2 = w_replies w1 -> w_replies w3 = w_replies w2 ->
  w_replies w3 = w_replies w1.
Proof. congruence. Qed.

Lemma run_turn_quiet gid : quiet (_run_turn E gid).
Proof. unfold quiet, _run_turn. step_through quiet_trans fail quiet_prim. Qed.

Ltac once_through :=
  repeat first
    [ apply once_replies_add
    | apply once_try
    | apply once_bind;
      [unfold quiet;
       first [apply run_turn_quiet
             |step_through quiet_trans fail quiet_prim]
      |intros ?]
    | match goal with
      | |- replies_once (match ?x with _ => _ end) => destruct x
      end ].

Lemma lines_next_replies_once m : replies_once (lines_next E m).
Proof. unfold lines_next. once_through. Qed.

Lemma lines_repeat_replies_once m : replies_once (lines_repeat E m).
Proof. unfold lines_repeat. once_through. Qed.

Lemma lines_play_replies_once gid m : replies_once (lines_play E gid m).
Proof. unfold lines_play. once_through. Qed.

Lemma filter_messages_replies_at_most_once m :
  replies_at_most_once (filter_messages U E m).
Proof.
  unfold filter_messages.
  destruct (_ || _); [apply at_most_once_ret|].
  apply at_most_once_bind; [unfold quiet; quiet_prim|intros [game|]];
    [|apply at_most_once_ret].
  destruct (negb _); [apply at_most_once_ret|].
  apply at_most_once_of_once. once_through.
Qed.

(** X3. An operation that raises has replied nothing. One that returns
    has replied exactly once, except [filter_messages], which may also
    return without a reply. *)
Theorem operations_reply_once :
  forall (op : operation) (w : world E),
    match snd (run_op U E op w) with
    | Ok _ =>
      (exists r, w_replies (fst (run_op U E op w)) = w_replies w ++ [r])
      \/ (w_replies (fst (run_op U E op w)) = w_replies w
          /\ exists m, op = OpFilter m)
    | Raise _ => w_replies (fst (run_op U E op w)) = w_replies w
    end.
Proof.
  intros [m|gid m|m|m] w; cbn [run_op].
  - pose proof (filter_messages_replies_at_most_once m w) as H.
    destruct (snd (filter_messages U E m w)); [|exact H].
    destruct H as [H|H]; [right; eauto|now left].
  - pose proof (lines_play_replies_once gid m w) as H.
    destruct (snd (lines_play E gid m w)); [now left|exact H].
  - pose proof (lines_next_replies_once m w) as H.
    destruct (snd (lines_next E m w)); [now left|exact H].
  - pose proof (lines_repeat_replies_once m w) as H.
    destruct (snd (lines_repeat E m w)); [now left|exact H].
Qed.

(** *** The assertion of [_run_turn] *)

Lemma get_gid_has d gid :
  In gid (map g_gid (games d)) -> get_game_by_gid d gid <> None.
Proof.
  unfold get_game_by_gid. induction (games d) as [|r l IH]; cbn; [tauto|].
  destruct (Z.eqb_spec (g_gid r) gid) as [_|Hne]; [discriminate|].
  intros [H|H]; [contradiction|now apply IH].
Qed.

Lemma find_gid_in l gid g :
  find (fun r => g_gid r =? gid) l = Some g -> In gid (map g_gid l).
Proof.
  intros H. apply find_some in H. destruct H as [Hin Heq].
  apply Z.eqb_eq in Heq. subst gid. now apply in_map.
Qed.

Lemma find_addr_in_gid l a g :
  find (fun r => String.eqb (g_addr r) a) l = Some g ->
  In (g_gid g) (map g_gid l).
Proof. intros H. apply find_some in H. now apply in_map. Qed.

Lemma keeps_rows_has_gid gid (w w' : world E) :
  keeps_rows w w' -> has_gid gid w -> has_gid gid w'.
Proof.
  intros [_ Hk] H. unfold has_gid in *.
  assert (Hs : forall l, map g_gid l = map snd (map row_key l))
    by (intros l; rewrite map_map; reflexivity).
  rewrite Hs in *. now rewrite Hk.
Qed.

Lemma na_bind {A B} gid (m : M E A) (k : A -> M E B) :
  never_asserts gid m -> steps keeps_rows m ->
  (forall a, never_asserts gid (k a)) ->
  never_asserts gid (bind E m k).
Proof.
  intros Hm Hr Hk w Hw. unfold bind. specialize (Hm w Hw).
  specialize (Hr w). destruct (m w) as [w1 [a|e]]; cbn in *.
  - apply Hk. now apply (keeps_rows_has_gid gid w).
  - intros [= ->]. now apply Hm.
Qed.

Lemma na_try_reply gid (body : M E unit) t chat :
  never_asserts gid body ->
  never_asserts gid (try_except_ValueError E body (replies_add E t chat)).
Proof.
  intros Hb w Hw. unfold try_except_ValueError. specialize (Hb w Hw).
  destruct (body w) as [w1 [a|[]]]; cbn in *; congruence.
Qed.

Section NoAssert.
Hypothesis Hengine : engine_no_assert E.

Ltac na_prim :=
  first
    [ intros ? _; cbn; discriminate
    | intros ? _; unfold new_Board;
      match goal with
      | |- context [Board E ?s ?o ?g] =>
        pose proof (proj1 Hengine s o g); destruct (Board E s o g)
      end; cbn in *; assumption
    | intros ? _; unfold call_next;
      match goal with
      | |- context [next E ?b ?g] =>
        pose proof (proj2 (proj2 Hengine) b g); destruct (next E b g)
      end; cbn in *; assumption
    | intros ? _; unfold call_move; cbn; apply (proj1 (proj2 Hengine)) ].

Ltac na_through known :=
  repeat first
    [ known
    | apply na_try_reply
    | apply na_bind;
      [ | first [apply run_turn_keeps_rows
                |step_through keeps_rows_trans fail rows_prim] | intros ? ]
    | match goal with
      | |- never_asserts _ (match ?x with _ => _ end) => destruct x
      end
    | progress cbv zeta
    | na_prim ].

Lemma run_turn_never_asserts gid : never_asserts gid (_run_turn E gid).
Proof.
  intros w Hw. unfold _run_turn. unfold bind at 1, read_db at 1.
  destruct (get_game_by_gid (w_db w) gid) as [g|] eqn:Hg;
    [|now apply get_gid_has in Hw].
  revert w Hw Hg.
  assert (H : never_asserts gid
                (bind E (new_Board E (g_board g) None) (fun b =>
                 if result E b =? 1
                 then
                   let sc := final_score E b in
                   if sc >? old_score E b
                   then bind E (db_set_game E (g_addr g) None sc)
                          (fun _ => ret E (game_over_high E sc b))
                   else bind E (db_set_board E (g_addr g) None)
                          (fun _ => ret E (game_over_plain E sc b))
                 else ret E (turn_text E b (g_score g))))).
  { na_through fail. }
  intros w Hw _. now apply H.
Qed.

Lemma reply_after_turn_never_asserts gid f chat :
  never_asserts gid
    (bind E (_run_turn E gid) (fun t => replies_add E (f t) chat)).
Proof. na_through ltac:(apply run_turn_never_asserts). Qed.

(** X4. With an engine that raises no [AssertionError] itself, no
    operation raises one: whenever [_run_turn] is called, the group it is
    called for has a row. *)
Theorem operations_never_fail_assertion :
  forall (op : operation) (w : world E),
    snd (run_op U E op w) <> Raise AssertionError.
Proof.
  intros [m|gid m|m|m] w; cbn [run_op].
  - unfold filter_messages.
    destruct (_ || _); [cbn; discriminate|].
    unfold bind at 1, read_db at 1.
    destruct (get_game_by_gid (w_db w) (m_chat m)) as [game|] eqn:Hg;
      [|cbn; discriminate].
    destruct (negb _); [cbn; discriminate|].
    apply find_gid_in in Hg. revert w Hg.
    change (never_asserts (m_chat m)
              (try_except_ValueError E
                 (bind E (new_Board E (g_board game) None) (fun b =>
                  bind E (call_move E (m_text m) b) (fun b0 =>
                  bind E (if score E b0 >? g_score game
                          then db_set_game E (g_addr game)
                                 (Some (export E b0)) (score E b0)
                          else db_set_board E (g_addr game)
                                 (Some (export E b0))) (fun _ =>
                  bind E (_run_turn E (m_chat m)) (fun t =>
                  replies_add E t None)))))
                 (replies_add E "❌ Invalid move!" None))).
    na_through ltac:(apply run_turn_never_asserts).
  - unfold lines_play. unfold bind at 1, read_db at 1.
    destruct (negb _); [cbn; discriminate|].
    unfold bind at 1, read_db at 1.
    destruct (get_game_by_addr (w_db w) (m_addr m)) as [game|] eqn:Hg.
    + apply find_addr_in_gid in Hg. revert w Hg.
      change (never_asserts (g_gid game)
                (bind E (new_Board E None (Some (g_score game))) (fun b =>
                 bind E (db_set_board E (g_addr game) (Some (export E b)))
                   (fun _ =>
                 bind E (_run_turn E (g_gid game)) (fun t =>
                 replies_add E ("Game started!" ++ nl ++ nl ++ t)%string
                             (Some (g_gid game))))))).
      na_through ltac:(apply run_turn_never_asserts).
    + unfold bind at 1, new_Board at 1.
      pose proof (proj1 Hengine None None (w_rng w)) as HB.
      destruct (Board E None None (w_rng w)) as [[b|e] g1]; cbn in HB;
        [|cbn; intros [= ->]; now apply HB].
      unfold bind at 1, db_add_game at 1.
      apply reply_after_turn_never_asserts.
      unfold has_gid. cbn [w_db with_db add_game games].
      rewrite map_app. apply in_or_app. right. now left.
  - unfold lines_next. unfold bind at 1, read_db at 1.
    destruct (get_game_by_gid (w_db w) (m_chat m)) as [game|] eqn:Hg;
      [|cbn; discriminate].
    destruct (truthy _); [|cbn; discriminate].
    apply find_gid_in in Hg. revert w Hg.
    change (never_asserts (m_chat m)
              (bind E (new_Board E (g_board game) None) (fun b =>
               bind E (call_next E b) (fun b0 =>
               bind E (db_set_board E (g_addr game) (Some (export E b0)))
                 (fun _ =>
               bind E (_run_turn E (m_chat m)) (fun t =>
               replies_add E t None)))))).
    na_through ltac:(apply run_turn_never_asserts).
  - unfold lines_repeat. unfold bind at 1, read_db at 1.
    destruct (get_game_by_addr (w_db w) (m_addr m)) as [game|] eqn:Hg;
      [|cbn; discriminate].
    destruct (truthy _); [|cbn; discriminate].
    apply find_addr_in_gid in Hg.
    now apply (reply_after_turn_never_asserts (g_gid game) (fun t => t)).
Qed.

End NoAssert.

End StepFacts.

(** ** The paths of the handlers *)

Section PathFacts.
Variable U : Unicode.
Variable E : Engine.

Ltac run_m :=
  cbv beta delta [bind ret raise read_db try_except_ValueError
                  new_Board call_move call_next
                  db_set_game db_set_board db_add_game replies_add] iota.

Lemma store_move_row d gid game b :
  get_game_by_gid d gid = Some game ->
  get_game_by_gid (store_move E d game b) gid = Some (moved_row E game b).
Proof.
  intros Hg. unfold moved_row, store_move.
  destruct (Z.gtb_spec (score E b) (g_score game)) as [Hgt|Hle].
  - rewrite (get_gid_set_game _ _ _ _ _ Hg). unfold set_row_game.
    now rewrite Z.max_r by lia.
  - rewrite (get_gid_set_board _ _ _ _ Hg). unfold set_row_board.
    now rewrite Z.max_l by lia.
Qed.

(** The world after the move has been stored, before [_run_turn]. *)
Lemma filter_messages_after_store m w game b0 g1 b :
  is_move_text U (m_text m) = true ->
  get_game_by_gid (w_db w) (m_chat m) = Some game ->
  truthy (g_board game) = true ->
  Board E (g_board game) None (w_rng w) = (Ok b0, g1) ->
  move E (m_text m) b0 = Ok b ->
  exists w1,
    w_db w1 = store_move E (w_db w) game b
    /\ w_rng w1 = g1 /\ w_replies w1 = w_replies w
    /\ filter_messages U E m w
       = match bind E (_run_turn E (m_chat m))
                      (fun t => replies_add E t None) w1 with
         | (w2, Raise ValueError) => (push_reply invalid_move w2, Ok tt)
         | r => r
         end.
Proof.
  intros Hm Hg Ht HB Hmv. rewrite filter_messages_guard, Hm.
  unfold bind at 1, read_db at 1. rewrite Hg, Ht. cbn [negb].
  unfold try_except_ValueError.
  unfold bind at 1, new_Board at 1. rewrite HB.
  unfold bind at 1, call_move at 1. rewrite Hmv.
  unfold store_move.
  destruct (score E b >? g_score game).
  - unfold bind at 1, db_set_game at 1.
    eexists. split; [|split; [|split; [|reflexivity]]]; reflexivity.
  - unfold bind at 1, db_set_board at 1.
    eexists. split; [|split; [|split; [|reflexivity]]]; reflexivity.
Qed.

Lemma run_turn_board_raises gid B (k : string -> M E B) w g e g' :
  get_game_by_gid (w_db w) gid = Some g ->
  Board E (g_board g) None (w_rng w) = (Raise e, g') ->
  bind E (_run_turn E gid) k w
  = (with_rng g' (emit (CallBoard (g_board g) None) w), Raise e).
Proof.
  intros Hg HB. unfold _run_turn. run_m. now rewrite Hg, HB.
Qed.

(** X5. After a move the engine accepts, on a game that goes on, the row
    of the group holds the exported board and the larger of the stored
    and the running score, and the reply shows the board read back with
    that score. *)
Theorem filter_messages_accepted_move :
  forall (m : Message) (w : world E) (game : game_row)
         (b0 b b1 : board E) (g1 g2 : rng E),
    is_move_text U (m_text m) = true ->
    get_game_by_gid (w_db w) (m_chat m) = Some game ->
    truthy (g_board game) = true ->
    Board E (g_board game) None (w_rng w) = (Ok b0, g1) ->
    move E (m_text m) b0 = Ok b ->
    Board E (Some (export E b)) None g1 = (Ok b1, g2) ->
    result E b1 <> 1 ->
    snd (filter_messages U E m w) = Ok tt
    /\ w_db (fst (filter_messages U E m w)) = store_move E (w_db w) game b
    /\ get_game_by_gid (w_db (fst (filter_messages U E m w))) (m_chat m)
       = Some (moved_row E game b)
    /\ w_replies (fst (filter_messages U E m w))
       = w_replies w
         ++ [ {| r_text := turn_text E b1 (Z.max (g_score game) (score E b));
                 r_chat := None |} ].
Proof.
  intros m w game b0 b b1 g1 g2 Hm Hg Ht HB Hmv HB1 Hr.
  destruct (filter_messages_after_store m w game b0 g1 b Hm Hg Ht HB Hmv)
    as [w1 [Hd [Hrng [Hrep ->]]]].
  pose proof (store_move_row (w_db w) (m_chat m) game b Hg) as Hrow.
  rewrite <- Hd in Hrow.
  rewrite (run_turn_reply_ongoing E (m_chat m) None (fun t => t) w1
             (moved_row E game b) b1 g2 Hrow).
  - cbn [fst snd w_db w_replies push_reply with_rng emit].
    rewrite Hrep. repeat split; auto.
  - rewrite Hrng. exact HB1.
  - exact Hr.
Qed.

(** X6. When the board stored by [filter_messages] cannot be read back,
    with a [ValueError], the reply says the move is invalid although the
    moved board has been stored. *)
Theorem filter_messages_invalid_after_store :
  forall (m : Message) (w : world E) (game : game_row)
         (b0 b : board E) (g1 g2 : rng E),
    is_move_text U (m_text m) = true ->
    get_game_by_gid (w_db w) (m_chat m) = Some game ->
    truthy (g_board game) = true ->
    Board E (g_board game) None (w_rng w) = (Ok b0, g1) ->
    move E (m_text m) b0 = Ok b ->
    Board E (Some (export E b)) None g1 = (Raise ValueError, g2) ->
    snd (filter_messages U E m w) = Ok tt
    /\ get_game_by_gid (w_db (fst (filter_messages U E m w))) (m_chat m)
       = Some (moved_row E game b)
    /\ w_replies (fst (filter_messages U E m w))
       = w_replies w ++ [invalid_move].
Proof.
  intros m w game b0 b g1 g2 Hm Hg Ht HB Hmv HB1.
  destruct (filter_messages_after_store m w game b0 g1 b Hm Hg Ht HB Hmv)
    as [w1 [Hd [Hrng [Hrep ->]]]].
  pose proof (store_move_row (w_db w) (m_chat m) game b Hg) as Hrow.
  rewrite <- Hd in Hrow.
  rewrite (run_turn_board_raises (m_chat m) unit
             (fun t => replies_add E t None) w1 (moved_row E game b)
             ValueError g2 Hrow)
    by (rewrite Hrng; exact HB1).
  cbn [fst snd w_db w_replies push_reply with_rng emit].
  rewrite Hrep. repeat split; auto.
Qed.

(** X7. An exception other than [ValueError] raised by the construction
    of the board or by the move comes out of [filter_messages]: nothing
    is replied and the database is as before. *)
Theorem filter_messages_other_exception :
  forall (m : Message) (w : world E) (game : game_row)
         (rb : res (board E)) (g1 : rng E) (e : exn),
    is_move_text U (m_text m) = true ->
    get_game_by_gid (w_db w) (m_chat m) = Some game ->
    truthy (g_board game) = true ->
    Board E (g_board game) None (w_rng w) = (rb, g1) ->
    (rb = Raise e
     \/ exists b, rb = Ok b /\ move E (m_text m) b = Raise e) ->
    e <> ValueError ->
    snd (filter_messages U E m w) = Raise e
    /\ w_db (fst (filter_messages U E m w)) = w_db w
    /\ w_replies (fst (filter_messages U E m w)) = w_replies w.
Proof.
  intros m w game rb g1 e Hm Hg Ht HB Hraise He.
  rewrite filter_messages_guard, Hm. run_m. rewrite Hg, Ht. cbn [negb].
  rewrite HB. destruct Hraise as [->|[b [-> Hmv]]].
  - destruct e; [congruence| |]; cbn; auto.
  - rewrite Hmv. destruct e; [congruence| |]; cbn; auto.
Qed.


(** X9. [lines_repeat] on a game that goes on changes nothing in the
    database: it constructs the board of the sender's group once and
    replies, in that group, the turn text with the stored score. *)
Theorem lines_repeat_ongoing :
  forall (m : Message) (w : world E) (game g : game_row)
         (b : board E) (g' : rng E),
    get_game_by_addr (w_db w) (m_addr m) = Some game ->
    truthy (g_board game) = true ->
    get_game_by_gid (w_db w) (g_gid game) = Some g ->
    Board E (g_board g) None (w_rng w) = (Ok b, g') ->
    result E b <> 1 ->
    lines_repeat E m w
    = (push_reply {| r_text := turn_text E b (g_score g);
                     r_chat := Some (g_gid game) |}
         (with_rng g' (emit (CallBoard (g_board g) None) w)), Ok tt).
Proof.
  intros m w game g b g' Hga Ht Hg HB Hr.
  unfold lines_repeat. unfold bind at 1, read_db at 1. rewrite Hga, Ht.
  apply (run_turn_reply_ongoing E (g_gid game) (Some (g_gid game))
           (fun t => t) w g b g' Hg HB Hr).
Qed.


(** X11. A stored board that is the empty string counts as no board:
    [filter_messages] leaves the world as it is, [lines_next] and
    [lines_repeat] reply that there is no active game, and no [Board] is
    constructed. *)
Theorem empty_board_is_no_active_game :
  forall (m : Message) (w : world E) (game : game_row),
    g_board game = Some EmptyString ->
    (get_game_by_gid (w_db w) (m_chat m) = Some game ->
     filter_messages U E m w = (w, Ok tt)
     /\ lines_next E m w
        = (push_reply {| r_text := no_active_game; r_chat := None |} w,
           Ok tt))
    /\ (get_game_by_addr (w_db w) (m_addr m) = Some game ->
        lines_repeat E m w
        = (push_reply {| r_text := no_active_game; r_chat := None |} w,
           Ok tt)).
Proof.
  intros m w game Hb. split.
  - intros Hg. split.
    + rewrite filter_messages_guard.
      destruct (is_move_text U (m_text m)); [|reflexivity].
      run_m. now rewrite Hg, Hb.
    + unfold lines_next. run_m. now rewrite Hg, Hb.
  - intros Hg. unfold lines_repeat. run_m. now rewrite Hg, Hb.
Qed.

(** X12. For a sender with a nick and no row, [lines_play] constructs
    [Board()] and adds a row for the sender and the new group, with the
    exported board and score 0; when the group is new and the game goes
    on, that row is the one the sender and the group resolve to, and the
    greeting with the turn text goes to the new group. Without a nick,
    [lines_play] only replies that a nick is needed. *)
Theorem lines_play_new_player :
  forall (gid : Z) (m : Message) (w : world E),
    (truthy (get_nick (w_db w) (m_addr m)) = false ->
     lines_play E gid m w
     = (push_reply {| r_text := need_nick; r_chat := None |} w, Ok tt))
    /\ (forall (b b1 : board E) (g1 g2 : rng E),
          truthy (get_nick (w_db w) (m_addr m)) = true ->
          get_game_by_addr (w_db w) (m_addr m) = None ->
          ~ In gid (map g_gid (games (w_db w))) ->
          Board E None None (w_rng w) = (Ok b, g1) ->
          Board E (Some (export E b)) None g1 = (Ok b1, g2) ->
          result E b1 <> 1 ->
          let row := {| g_addr := m_addr m; g_gid := gid;
                        g_board := Some (export E b); g_score := 0 |} in
          snd (lines_play E gid m w) = Ok tt
          /\ w_db (fst (lines_play E gid m w))
             = add_game (w_db w) (m_addr m) gid (export E b)
          /\ get_game_by_addr (w_db (fst (lines_play E gid m w))) (m_addr m)
             = Some row
          /\ get_game_by_gid (w_db (fst (lines_play E gid m w))) gid
             = Some row
          /\ w_replies (fst (lines_play E gid m w))
             = w_replies w
               ++ [ {| r_text :=
                         ("Hello " ++ m_name m
                          ++ ", in this group you can play Color Lines."
                          ++ nl ++ nl ++ turn_text E b1 0)%string;
                       r_chat := Some gid |} ]).
Proof.
  intros gid m w. split.
  - intros Hn. unfold lines_play. run_m. now rewrite Hn.
  - intros b b1 g1 g2 Hn Hga Hfresh HB HB1 Hr row.
    assert (Hgid : get_game_by_gid
                     (add_game (w_db w) (m_addr m) gid (export E b)) gid
                   = Some row).
    { unfold get_game_by_gid, add_game. cbn [games].
      rewrite find_app_r by now apply find_gid_fresh.
      cbn. now rewrite Z.eqb_refl. }
    assert (Haddr : get_game_by_addr
                      (add_game (w_db w) (m_addr m) gid (export E b))
                      (m_addr m) = Some row).
    { unfold get_game_by_addr, add_game in *. cbn [games].
      rewrite find_app_r by exact Hga.
      cbn. now rewrite String.eqb_refl. }
    assert (Hrun : lines_play E gid m w
              = (push_reply
                   {| r_text :=
                        ("Hello " ++ m_name m
                         ++ ", in this group you can play Color Lines."
                         ++ nl ++ nl ++ turn_text E b1 0)%string;
                      r_chat := Some gid |}
                   (with_rng g2
                      (emit (CallBoard (Some (export E b)) None)
                         (with_db
                            (add_game (w_db w) (m_addr m) gid (export E b))
                            (emit (DbAddGame (m_addr m) gid (export E b))
                               (with_rng g1
                                  (emit (CallBoard None None) w)))))),
                 Ok tt)).
    { unfold lines_play. unfold bind at 1, read_db at 1. rewrite Hn.
      cbn [negb]. unfold bind at 1, read_db at 1. rewrite Hga.
      unfold bind at 1, new_Board at 1. rewrite HB.
      unfold bind at 1, db_add_game at 1.
      apply (run_turn_reply_ongoing E gid (Some gid)
               (fun t => ("Hello " ++ m_name m
                          ++ ", in this group you can play Color Lines."
                          ++ nl ++ nl ++ t)%string)
               _ row b1 g2); [exact Hgid|exact HB1|exact Hr]. }
    rewrite Hrun. cbn [fst snd w_db w_replies push_reply with_rng with_db emit].
    repeat split; auto.
Qed.

End PathFacts.

(** ** Leaving the group *)

Section MemberFacts.

Lemma find_filter_other {A} (p q : A -> bool) l :
  (forall x, p x = true -> q x = true) ->
  find p (filter q l) = find p l.
Proof.
  intros Hpq. induction l as [|x l IH]; cbn; [reflexivity|].
  destruct (q x) eqn:Hq; cbn.
  - destruct (p x); [reflexivity|exact IH].
  - destruct (p x) eqn:Hp; [|exact IH].
    apply Hpq in Hp. congruence.
Qed.

Lemma find_filter_none {A} (p q : A -> bool) l :
  (forall x, In x l -> p x = true -> q x = false) ->
  find p (filter q l) = None.
Proof.
  induction l as [|x l IH]; intros Hpq; cbn; [reflexivity|].
  assert (IH' : find p (filter q l) = None)
    by (apply IH; intros y Hy; apply Hpq; now right).
  destruct (q x) eqn:Hq; cbn; [|exact IH'].
  destruct (p x) eqn:Hp; [|exact IH'].
  apply Hpq in Hp; [congruence|now left].
Qed.

Lemma delete_game_gone d a : get_game_by_addr (delete_game d a) a = None.
Proof.
  unfold get_game_by_addr, delete_game. cbn [games].
  apply find_filter_none. intros x _ Hx. now rewrite Hx.
Qed.

Lemma delete_game_other d a a' :
  a' <> a -> get_game_by_addr (delete_game d a) a' = get_game_by_addr d a'.
Proof.
  intros Hne. unfold get_game_by_addr, delete_game. cbn [games].
  apply find_filter_other. intros x Hx. apply String.eqb_eq in Hx.
  apply negb_true_iff. apply String.eqb_neq. congruence.
Qed.

(** X13. When the player of the group's game, or the bot, is removed
    from the group, the player's row is deleted, and with it the stored
    score; the rows of the other players and all nicks stay; the bot
    leaves the group unless it is the one removed. When anyone else is
    removed, or the group has no game, nothing happens. *)
Theorem member_removed_deletes_the_game :
  forall (me contact : Contact) (chat_id : Z) (d : DB),
    (forall game,
        get_game_by_gid d chat_id = Some game ->
        c_addr contact = c_addr me \/ c_addr contact = g_addr game ->
        let r := deltabot_member_removed me chat_id contact d in
        get_game_by_addr (fst r) (g_addr game) = None
        /\ stored_score (fst r) (g_addr game) = None
        /\ (forall a, a <> g_addr game ->
                      get_game_by_addr (fst r) a = get_game_by_addr d a)
        /\ nicks (fst r) = nicks d
        /\ snd r = negb (c_id contact =? c_id me))
    /\ (get_game_by_gid d chat_id = None
        \/ (exists game,
               get_game_by_gid d chat_id = Some game
               /\ c_addr contact <> c_addr me
               /\ c_addr contact <> g_addr game) ->
        deltabot_member_removed me chat_id contact d = (d, false)).
Proof.
  intros me contact chat_id d. split.
  - intros game Hg Hc r. subst r. unfold deltabot_member_removed.
    rewrite Hg.
    assert (Ht : String.eqb (c_addr contact) (c_addr me)
                 || String.eqb (c_addr contact) (g_addr game) = true).
    { apply orb_true_iff. destruct Hc as [Hc|Hc]; [left|right];
        now apply String.eqb_eq. }
    rewrite Ht. cbn [fst snd]. repeat split.
    + apply delete_game_gone.
    + unfold stored_score. now rewrite delete_game_gone.
    + intros a Ha. now apply delete_game_other.
  - intros [Hg|[game [Hg [H1 H2]]]]; unfold deltabot_member_removed;
      rewrite Hg; [reflexivity|].
    apply String.eqb_neq in H1, H2. now rewrite H1, H2.
Qed.

(** X14. After the player has left a group whose game was the only one
    of that group, the group has no game any more: move texts sent there
    are ignored and [lines_next] replies that there is no active game. *)
Theorem member_removed_then_idle :
  forall (U : Unicode) (E : Engine) (me contact : Contact) (chat_id : Z)
         (w : world E) (game : game_row) (m : Message),
    NoDup (map g_gid (games (w_db w))) ->
    get_game_by_gid (w_db w) chat_id = Some game ->
    c_addr contact = c_addr me \/ c_addr contact = g_addr game ->
    m_chat m = chat_id ->
    let w1 := with_db (fst (deltabot_member_removed me chat_id contact
                              (w_db w))) w in
    filter_messages U E m w1 = (w1, Ok tt)
    /\ lines_next E m w1
       = (push_reply {| r_text := no_active_game; r_chat := None |} w1,
          Ok tt).
Proof.
  intros U E me contact chat_id w game m Hnd Hg Hc Hm w1.
  assert (Hnone : get_game_by_gid (w_db w1) (m_chat m) = None).
  { subst w1. cbn [w_db with_db]. unfold deltabot_member_removed.
    rewrite Hg.
    assert (Ht : String.eqb (c_addr contact) (c_addr me)
                 || String.eqb (c_addr contact) (g_addr game) = true).
    { apply orb_true_iff. destruct Hc as [Hc|Hc]; [left|right];
        now apply String.eqb_eq. }
    rewrite Ht, Hm. cbn [fst]. unfold get_game_by_gid, delete_game.
    cbn [games]. apply find_filter_none. intros x Hxin Hx.
    apply Z.eqb_eq in Hx. apply negb_false_iff, String.eqb_eq.
    pose proof (In_find_gid _ x Hnd Hxin) as H1.
    rewrite Hx in H1. unfold get_game_by_gid in Hg. congruence. }
  split.
  - rewrite filter_messages_guard.
    destruct (is_move_text U (m_text m)); [|reflexivity].
    unfold bind, read_db. now rewrite Hnone.
  - unfold lines_next, bind, read_db. now rewrite Hnone.
Qed.

End MemberFacts.

(** ** Nicks *)

Section NickFacts.

Lemma py_split_words t : Forall is_word (py_split t).
Proof.
  induction t as [|c rest IH]; cbn; [constructor|].
  destruct (py_isspace c) eqn:Hc; [exact IH|].
  destruct (starts_word rest).
  - destruct (py_split rest) as [|w ws].
    + constructor; [|constructor]. split; [discriminate|]. cbn.
      now rewrite Hc.
    + inversion IH as [|? ? [Hw1 Hw2] Hws]; subst.
      constructor; [|exact Hws]. split; [discriminate|]. cbn.
      now rewrite Hc, Hw2.
  - constructor; [|exact IH]. split; [discriminate|]. cbn. now rewrite Hc.
Qed.

Lemma class_then_end_sound k (t : text) :
  class_then_end k t = true ->
  exists j, (1 <= j <= k)%nat /\ List.length (firstn j t) = j
            /\ forallb nick_char (firstn j t) = true
            /\ at_end (skipn j t) = true.
Proof.
  induction k as [|k IH]; cbn [class_then_end]; [discriminate|].
  intros H. apply orb_true_iff in H. destruct H as [H|H].
  - apply andb_true_iff in H. destruct H as [H H3].
    apply andb_true_iff in H. destruct H as [H1 H2].
    apply Nat.eqb_eq in H1. exists (S k). repeat split; auto; lia.
  - destruct (IH H) as [j [Hj H']]. exists j. split; [lia|exact H'].
Qed.

Lemma class_then_end_complete k j (t : text) :
  (1 <= j <= k)%nat -> List.length (firstn j t) = j ->
  forallb nick_char (firstn j t) = true -> at_end (skipn j t) = true ->
  class_then_end k t = true.
Proof.
  intros Hj H1 H2 H3. induction k as [|k IH]; [lia|].
  cbn [class_then_end]. apply orb_true_iff.
  destruct (Nat.eq_dec j (S k)) as [<-|Hne].
  - left. rewrite H1, Nat.eqb_refl, H2, H3. reflexivity.
  - right. apply IH. lia.
Qed.

Lemma at_end_cases (r : text) : at_end r = true -> r = [] \/ r = [10%N].
Proof.
  destruct r as [|x [|y r]]; cbn; try discriminate; [now left|].
  intros H. apply N.eqb_eq in H. subst x. now right.
Qed.

(** What [nick_re] lets through is made of characters of the class and
    at most a final newline. *)
Lemma nick_re_match_chars (t : text) (c : codepoint) :
  nick_re_match t = true -> In c t -> nick_char c = true \/ c = 10%N.
Proof.
  intros H Hc. apply class_then_end_sound in H.
  destruct H as [j [_ [_ [H2 H3]]]].
  rewrite <- (firstn_skipn j t) in Hc. apply in_app_or in Hc.
  destruct Hc as [Hc|Hc].
  - left. rewrite forallb_forall in H2. now apply H2.
  - right. destruct (at_end_cases _ H3) as [Hs|Hs]; rewrite Hs in Hc.
    + contradiction.
    + destruct Hc as [<-|[]]. reflexivity.
Qed.

Lemma nick_re_match_valid (t : text) :
  ~ In 10%N t -> nick_re_match t = valid_nick t.
Proof.
  intros Hnl. unfold valid_nick.
  destruct (nick_re_match t) eqn:Hm.
  - apply class_then_end_sound in Hm.
    destruct Hm as [j [Hj [H1 [H2 H3]]]].
    assert (Hs : skipn j t = []).
    { destruct (at_end_cases _ H3) as [Hs|Hs]; [exact Hs|].
      exfalso. apply Hnl. rewrite <- (firstn_skipn j t), Hs.
      apply in_or_app. right. now left. }
    assert (Ht : firstn j t = t).
    { rewrite <- (firstn_skipn j t) at 2. rewrite Hs. now rewrite app_nil_r. }
    rewrite Ht in H1, H2. rewrite H1, H2.
    symmetry. apply andb_true_iff. split; [|reflexivity].
    apply andb_true_iff. split; apply Nat.leb_le; lia.
  - symmetry. apply not_true_iff_false. intros Hv.
    apply andb_true_iff in Hv. destruct Hv as [Hv H2].
    apply andb_true_iff in Hv. destruct Hv as [H0 H1].
    apply Nat.leb_le in H0, H1.
    assert (Hc : class_then_end 16 t = true).
    { apply (class_then_end_complete 16 (List.length t)).
      - lia.
      - now rewrite firstn_all.
      - now rewrite firstn_all.
      - now rewrite skipn_all. }
    unfold nick_re_match in Hm. congruence.
Qed.

Lemma word_no_newline (w : text) : is_word w -> ~ In 10%N w.
Proof.
  intros [_ Hw] Hin. rewrite forallb_forall in Hw.
  specialize (Hw _ Hin). discriminate.
Qed.

Lemma no_match_empty : nick_re_match [] = false.
Proof. reflexivity. Qed.

Lemma no_match_two_words w1 w2 ws :
  is_word w2 -> nick_re_match (text_join [32%N] (w1 :: w2 :: ws)) = false.
Proof.
  intros _. apply not_true_iff_false. intros Hm.
  destruct (nick_re_match_chars _ 32%N Hm) as [H|H]; try discriminate.
  change (text_join [32%N] (w1 :: w2 :: ws))
    with (w1 ++ [32%N] ++ text_join [32%N] (w2 :: ws)).
  apply in_or_app. right. now left.
Qed.

Lemma lines_nick_cases (payload : text) (a : string) (d : DB) :
    lines_nick payload a d
    = match payload, py_split payload with
      | [], _ => (d, ("** Nick: " ++ py_str_opt (get_nick d a))%string)
      | _, [w] =>
        if valid_nick w then
          if truthy (get_addr d (ascii_str w)) then (d, nick_taken)
          else (set_nick d a (ascii_str w),
                ("** Nick: " ++ ascii_str w)%string)
        else (d, invalid_nick)
      | _, _ => (d, invalid_nick)
      end.
Proof.
  destruct payload as [|c rest]; [reflexivity|].
  unfold lines_nick. pose proof (py_split_words (c :: rest)) as Hw.
  destruct (py_split (c :: rest)) as [|w [|w2 ws]].
  - reflexivity.
  - inversion Hw as [|? ? Hw1 _]; subst. cbn [text_join].
    rewrite (nick_re_match_valid w (word_no_newline w Hw1)).
    now destruct (valid_nick w).
  - inversion Hw as [|? ? _ Hws]; subst.
    inversion Hws as [|? ? Hw2 _]; subst.
    now rewrite (no_match_two_words w w2 ws Hw2).
Qed.

(** X15. [lines_nick] with a payload: when the payload holds exactly one
    word, of 1 to 16 characters among letters, digits, [-] and [_], the
    word becomes the sender's nick unless an address has it already; an
    empty payload asks for the current nick; every other payload, one of
    several words too, is refused as an invalid nick and leaves the
    database as it is. *)
Theorem lines_nick_single_word :
  forall (payload : text) (a : string) (d : DB),
    lines_nick payload a d
    = match payload, py_split payload with
      | [], _ => (d, ("** Nick: " ++ py_str_opt (get_nick d a))%string)
      | _, [w] =>
        if valid_nick w then
          if truthy (get_addr d (ascii_str w)) then (d, nick_taken)
          else (set_nick d a (ascii_str w),
                ("** Nick: " ++ ascii_str w)%string)
        else (d, invalid_nick)
      | _, _ => (d, invalid_nick)
      end.
Proof. exact lines_nick_cases. Qed.

Lemma in_map_filter {A B} (f : A -> B) q l x :
  In x (map f (filter q l)) -> In x (map f l).
Proof.
  intros H. apply in_map_iff in H. destruct H as [y [<- Hy]].
  apply filter_In in Hy. apply in_map. tauto.
Qed.

Lemma NoDup_map_filter {A B} (f : A -> B) q l :
  NoDup (map f l) -> NoDup (map f (filter q l)).
Proof.
  induction l as [|x l IH]; cbn; [auto|].
  intros H. inversion H as [|? ? Hx Hl]; subst.
  destruct (q x); cbn; [|auto].
  constructor; [|auto]. intros Hin. apply Hx.
  now apply in_map_filter in Hin.
Qed.

Lemma get_nick_set_nick d a n : get_nick (set_nick d a n) a = Some n.
Proof.
  unfold get_nick, set_nick. cbn [nicks].
  rewrite find_app_r.
  - cbn. now rewrite String.eqb_refl.
  - apply find_filter_none. intros x _ Hx. now rewrite Hx.
Qed.

Lemma get_nick_set_nick_other d a n a' :
  a' <> a -> get_nick (set_nick d a n) a' = get_nick d a'.
Proof.
  intros Hne. unfold get_nick, set_nick. cbn [nicks].
  assert (Hf : find (fun p => String.eqb (fst p) a')
                 (filter (fun p => negb (String.eqb (fst p) a)) (nicks d))
               = find (fun p => String.eqb (fst p) a') (nicks d)).
  { apply find_filter_other. intros x Hx. apply String.eqb_eq in Hx.
    apply negb_true_iff, String.eqb_neq. congruence. }
  destruct (find (fun p => String.eqb (fst p) a') (nicks d)) as [p|] eqn:Hp.
  - now rewrite (find_app_l _ _ _ _ Hf).
  - rewrite (find_app_r _ _ _ Hf). cbn.
    apply String.eqb_neq in Hne. rewrite String.eqb_sym in Hne.
    now rewrite Hne.
Qed.

Lemma nick_free d n :
  Forall (fun p : string * string => fst p <> EmptyString /\
            exists t, valid_nick t = true /\ snd p = ascii_str t) (nicks d) ->
  truthy (get_addr d n) = false -> ~ In n (map snd (nicks d)).
Proof.
  intros Hall Hfree Hin. unfold get_addr in Hfree.
  destruct (find (fun p => String.eqb (snd p) n) (nicks d)) as [p|] eqn:Hf.
  - apply find_some in Hf. destruct Hf as [Hp _].
    rewrite Forall_forall in Hall. destruct (Hall p Hp) as [Hne _].
    cbn in Hfree. destruct (fst p); [congruence|discriminate].
  - apply in_map_iff in Hin. destruct Hin as [p [Hsnd Hp]].
    apply (find_none _ _ Hf) in Hp. rewrite Hsnd, String.eqb_refl in Hp.
    discriminate.
Qed.

Lemma set_nick_ok d a t :
  nicks_ok d -> a <> EmptyString -> valid_nick t = true ->
  truthy (get_addr d (ascii_str t)) = false ->
  nicks_ok (set_nick d a (ascii_str t)).
Proof.
  intros [Hf [Hs Hall]] Ha Hv Hfree. unfold nicks_ok, set_nick.
  cbn [nicks]. rewrite !map_app. cbn [map fst snd]. repeat split.
  - apply NoDup_snoc; [now apply NoDup_map_filter|].
    intros Hin. apply in_map_iff in Hin. destruct Hin as [p [Hp Hin]].
    apply filter_In in Hin. destruct Hin as [_ Hq].
    rewrite Hp, String.eqb_refl in Hq. discriminate.
  - apply NoDup_snoc; [now apply NoDup_map_filter|].
    intros Hin. apply in_map_filter in Hin.
    now apply (nick_free d (ascii_str t) Hall Hfree).
  - apply Forall_app. split.
    + rewrite Forall_forall in *. intros p Hp. apply filter_In in Hp.
      apply Hall. tauto.
    + constructor; [|constructor]. cbn. split; [exact Ha|]. eauto.
Qed.

(** X16. [lines_nick] keeps the nickname registry in order: one nick per
    address, no nick held by two addresses, every nick of 1 to 16
    characters of the class. It never touches the games, and it changes
    the nick of no address but the sender's. *)
Theorem lines_nick_keeps_registry :
  forall (payload : text) (a : string) (d : DB),
    nicks_ok d -> a <> EmptyString ->
    nicks_ok (fst (lines_nick payload a d))
    /\ games (fst (lines_nick payload a d)) = games d
    /\ forall a', a' <> a ->
                  get_nick (fst (lines_nick payload a d)) a' = get_nick d a'.
Proof.
  intros payload a d Hok Ha. rewrite lines_nick_cases.
  destruct payload as [|c rest]; [cbn; auto|].
  destruct (py_split (c :: rest)) as [|w [|w2 ws]]; try (cbn; auto; fail).
  destruct (valid_nick w) eqn:Hv; [|cbn; auto].
  destruct (truthy (get_addr d (ascii_str w))) eqn:Hfree; [cbn; auto|].
  cbn [fst]. split; [|split].
  - now apply set_nick_ok.
  - reflexivity.
  - intros a' Hne. now apply get_nick_set_nick_other.
Qed.

(** X17. An accepted nick can be looked up both ways, and it lets the
    sender through the nick test of [lines_play]: after [lines_nick] set
    the one valid word of the payload, the sender's nick is that word,
    the nick leads back to the sender, and the nick is not empty. *)
Theorem lines_nick_then_lookup :
  forall (payload w : text) (a : string) (d : DB),
    nicks_ok d -> a <> EmptyString ->
    payload <> [] -> py_split payload = [w] -> valid_nick w = true ->
    truthy (get_addr d (ascii_str w)) = false ->
    get_nick (fst (lines_nick payload a d)) a = Some (ascii_str w)
    /\ get_addr (fst (lines_nick payload a d)) (ascii_str w) = Some a
    /\ truthy (get_nick (fst (lines_nick payload a d)) a) = true
    /\ snd (lines_nick payload a d) = ("** Nick: " ++ ascii_str w)%string.
Proof.
  intros payload w a d [_ [_ Hall]] Ha Hp Hs Hv Hfree.
  destruct payload as [|c rest]; [congruence|].
  rewrite lines_nick_cases. cbv beta iota.
  replace (py_split (c :: rest)) with [w].
  rewrite Hv, Hfree. cbn [fst snd].
  rewrite get_nick_set_nick. repeat split.
  - unfold get_addr, set_nick. cbn [nicks]. rewrite find_app_r.
    + cbn. now rewrite String.eqb_refl.
    + pose proof (nick_free d (ascii_str w) Hall Hfree) as Hn.
      destruct (find _ (filter _ (nicks d))) as [p|] eqn:Hf; [|reflexivity].
      exfalso. apply find_some in Hf. destruct Hf as [Hin Heq].
      apply filter_In in Hin. apply Hn. apply String.eqb_eq in Heq.
      rewrite <- Heq. apply in_map. tauto.
  - unfold valid_nick in Hv. destruct w as [|x w]; [discriminate|].
    reflexivity.
Qed.

End NickFacts.

(** ** The scoreboard, [lines_top] *)

Section TopFacts.
Variable get_games : DB -> option nat -> list game_row.

Lemma str_app_assoc (a b c : string) :
  ((a ++ b) ++ c = a ++ (b ++ c))%string.
Proof. induction a as [|x a IH]; cbn; [reflexivity|now rewrite IH]. Qed.

Lemma str_app_nil_r (a : string) : (a ++ EmptyString = a)%string.
Proof. induction a as [|x a IH]; cbn; [reflexivity|now rewrite IH]. Qed.

Lemma board_eqb_eq a b : board_eqb a b = true <-> a = b.
Proof.
  destruct a as [x|], b as [y|]; cbn; try (split; congruence).
  rewrite String.eqb_eq. split; congruence.
Qed.

Lemma row_eqb_eq a b : row_eqb a b = true <-> a = b.
Proof.
  unfold row_eqb. rewrite !andb_true_iff, String.eqb_eq, !Z.eqb_eq,
    board_eqb_eq.
  destruct a, b; cbn. split.
  - intros [[[-> ->] ->] ->]. reflexivity.
  - intros [= -> -> -> ->]. auto.
Qed.

Lemma py_index_Some x l p :
  py_index x l = Some p -> nth_error l p = Some x /\ (p < List.length l)%nat.
Proof.
  revert p. induction l as [|y l IH]; cbn; [discriminate|]. intros p.
  destruct (row_eqb y x) eqn:Hy.
  - intros [= <-]. apply row_eqb_eq in Hy. subst. cbn. split; [auto|lia].
  - destruct (py_index x l) as [q|]; [|discriminate].
    intros [= <-]. destruct (IH q eq_refl) as [H1 H2]. cbn.
    split; [exact H1|lia].
Qed.

Lemma py_index_None x l : py_index x l = None <-> ~ In x l.
Proof.
  induction l as [|y l IH]; cbn; [tauto|].
  destruct (row_eqb y x) eqn:Hy.
  - apply row_eqb_eq in Hy. split; [discriminate|]. tauto.
  - assert (Hne : y <> x)
      by (intros Heq; apply row_eqb_eq in Heq; congruence).
    destruct (py_index x l) as [q|]; cbn.
    + split; [discriminate|]. intros Hn.
      assert (Hq : Some q = None) by (apply IH; tauto). discriminate.
    + split; [|reflexivity]. intros _ [Heq|Hin]; [congruence|].
      destruct IH as [IH _]. now apply IH.
Qed.

Lemma render_app d a b :
  render d (a ++ b) = (render d a ++ render d b)%string.
Proof.
  induction a as [|[n g] a IH]; [reflexivity|].
  rewrite <- app_comm_cons. cbn [render].
  now rewrite IH, str_app_assoc.
Qed.

Lemma rank_lines_render d n l :
  rank_lines d n l = render d (combine (seq n (List.length l)) l).
Proof.
  revert n. induction l as [|g l IH]; intros n;
    cbn [rank_lines render combine seq List.length]; [reflexivity|].
  now rewrite IH.
Qed.

Lemma in_combine_seq (l : list game_row) s n g :
  In (n, g) (combine (seq s (List.length l)) l) ->
  (s <= n)%nat /\ nth_error l (n - s) = Some g.
Proof.
  revert s. induction l as [|x l IH]; intros s; cbn; [tauto|].
  intros [[= <- <-]|Hin].
  - rewrite Nat.sub_diag. split; [lia|reflexivity].
  - destruct (IH _ Hin) as [H1 H2]. split; [lia|].
    replace (n - s)%nat with (S (n - S s)) by lia. exact H2.
Qed.

Lemma combine_seq_nth (l : list game_row) s i g :
  nth_error l i = Some g -> In ((s + i)%nat, g) (combine (seq s (List.length l)) l).
Proof.
  revert s i. induction l as [|x l IH]; intros s [|i]; cbn;
    try discriminate.
  - intros [= ->]. left. f_equal. lia.
  - intros H. right. replace (s + S i)%nat with (S s + i)%nat by lia.
    now apply IH.
Qed.

Lemma map_fst_combine_seq (l : list game_row) s :
  map fst (combine (seq s (List.length l)) l) = seq s (List.length l).
Proof.
  revert s. induction l as [|x l IH]; intros s; cbn; [reflexivity|].
  now rewrite IH.
Qed.

Lemma sorted_seq s k : StronglySorted lt (seq s k).
Proof.
  revert s. induction k as [|k IH]; intros s; cbn; constructor; [apply IH|].
  apply Forall_forall. intros x Hx. apply in_seq in Hx. lia.
Qed.

Lemma sorted_app (l1 l2 : list nat) :
  StronglySorted lt l1 -> StronglySorted lt l2 ->
  (forall x y, In x l1 -> In y l2 -> (x < y)%nat) ->
  StronglySorted lt (l1 ++ l2).
Proof.
  induction l1 as [|a l1 IH]; intros H1 H2 H; cbn; [exact H2|].
  inversion H1 as [|? ? Hs Hall]; subst. constructor.
  - apply IH; [exact Hs|exact H2|]. intros x y Hx Hy. apply H; cbn; auto.
  - apply Forall_app. split; [exact Hall|].
    apply Forall_forall. intros y Hy. apply H; cbn; auto.
Qed.

Lemma top_entries_ranks games :
  map fst (top_entries games)
  = seq 1 (Nat.min limit (List.length games)).
Proof.
  unfold top_entries. rewrite map_fst_combine_seq.
  now rewrite length_firstn.
Qed.

Lemma top_entries_position games n g :
  In (n, g) (top_entries games) ->
  (1 <= n <= limit)%nat /\ nth_error games (n - 1) = Some g.
Proof.
  intros Hin. unfold top_entries in Hin.
  assert (Hr : In n (map fst (combine (seq 1 (List.length (firstn limit games)))
                               (firstn limit games))))
    by (apply in_map_iff; exists (n, g); auto).
  rewrite map_fst_combine_seq, length_firstn in Hr. apply in_seq in Hr.
  apply in_combine_seq in Hin. destruct Hin as [H1 H2].
  rewrite nth_error_firstn in H2.
  destruct (Nat.ltb (n - 1) limit); [|discriminate].
  split; [lia|exact H2].
Qed.

Lemma top_entries_has games p g :
  nth_error games p = Some g -> (p < limit)%nat ->
  In ((p + 1)%nat, g) (top_entries games).
Proof.
  intros Hn Hp. unfold top_entries.
  replace (p + 1)%nat with (1 + p)%nat by lia. apply combine_seq_nth.
  rewrite nth_error_firstn.
  apply Nat.ltb_lt in Hp. now rewrite Hp.
Qed.

Lemma around_entries_position games p n g :
  (limit <= p)%nat ->
  In (n, g) (around_entries games p) ->
  (limit < n)%nat /\ nth_error games (n - 1) = Some g.
Proof.
  intros Hp Hin. unfold around_entries in Hin.
  apply in_app_or in Hin. destruct Hin as [Hin|Hin].
  - destruct (Nat.ltb limit p) eqn:Hlt; [|destruct Hin].
    apply Nat.ltb_lt in Hlt.
    destruct (nth_error games (p - 1)) as [x|] eqn:Hx; [|destruct Hin].
    destruct Hin as [[= <- <-]|[]]. split; [lia|exact Hx].
  - apply in_app_or in Hin. destruct Hin as [Hin|Hin].
    + destruct (nth_error games p) as [x|] eqn:Hx; [|destruct Hin].
      destruct Hin as [[= <- <-]|[]]. split; [lia|].
      now replace (p + 1 - 1)%nat with p by lia.
    + destruct (Nat.ltb p (List.length games - 1)); [|destruct Hin].
      destruct (nth_error games (p + 1)) as [x|] eqn:Hx; [|destruct Hin].
      destruct Hin as [[= <- <-]|[]]. split; [lia|].
      now replace (p + 2 - 1)%nat with (p + 1)%nat by lia.
Qed.

Lemma around_entries_sorted games p :
  StronglySorted lt (map fst (around_entries games p)).
Proof.
  unfold around_entries. rewrite !map_app.
  apply sorted_app; [|apply sorted_app|].
  - destruct (Nat.ltb limit p); [|constructor].
    destruct (nth_error games (p - 1)); cbn; repeat constructor.
  - destruct (nth_error games p); cbn; repeat constructor.
  - destruct (Nat.ltb p (List.length games - 1)); [|constructor].
    destruct (nth_error games (p + 1)); cbn; repeat constructor.
  - intros x y Hx Hy.
    destruct (nth_error games p); [|destruct Hx].
    destruct Hx as [<-|[]].
    destruct (Nat.ltb p (List.length games - 1)); [|destruct Hy].
    destruct (nth_error games (p + 1)); [|destruct Hy].
    destruct Hy as [<-|[]]. cbn. lia.
  - intros x y Hx Hy.
    destruct (Nat.ltb limit p) eqn:Hlt; [|destruct Hx].
    apply Nat.ltb_lt in Hlt.
    destruct (nth_error games (p - 1)); [|destruct Hx].
    destruct Hx as [<-|[]]. rewrite <- map_app in Hy.
    apply in_map_iff in Hy. destruct Hy as [[n' g'] [<- Hin]].
    apply in_app_or in Hin. destruct Hin as [Hin|Hin].
    + destruct (nth_error games p); [|destruct Hin].
      destruct Hin as [[= <- <-]|[]]. cbn. lia.
    + destruct (Nat.ltb p (List.length games - 1)); [|destruct Hin].
      destruct (nth_error games (p + 1)); [|destruct Hin].
      destruct Hin as [[= <- <-]|[]]. cbn. lia.
Qed.

Lemma around_entries_length games p :
  (List.length (around_entries games p) <= 3)%nat.
Proof.
  unfold around_entries. rewrite !length_app.
  destruct (Nat.ltb limit p); [destruct (nth_error games (p - 1))|];
    destruct (nth_error games p);
    (destruct (Nat.ltb p (List.length games - 1));
     [destruct (nth_error games (p + 1))|]); cbn; lia.
Qed.

Ltac text_eq :=
  rewrite ?render_app; cbn [render String.append];
  rewrite ?str_app_assoc, ?str_app_nil_r; reflexivity.

(** The text [lines_top] builds for a sender listed at position [p],
    with [limit <= p]. *)
Lemma lines_top_around (m : Message) (d : DB) (game : game_row) (p : nat) :
  get_game_by_addr d (m_addr m) = Some game ->
  py_index game (get_games d None) = Some p ->
  (limit <= p)%nat ->
  lines_top get_games m d
  = Ok (scoreboard_header
        ++ render d (top_entries (get_games d None))
        ++ nl ++ render d (around_entries (get_games d None) p))%string
  /\ In ((p + 1)%nat, game) (around_entries (get_games d None) p).
Proof.
  intros Hg Hp Hle. unfold lines_top. rewrite Hg, Hp.
  set (games := get_games d None).
  apply py_index_Some in Hp. fold games in Hp. destruct Hp as [Hn Hlen].
  assert (Hleb : Nat.leb limit p = true) by now apply Nat.leb_le.
  rewrite Hleb. unfold around_entries. rewrite Hn.
  assert (Hne : games <> []) by (intros ->; cbn in Hlen; lia).
  destruct games as [|g0 gs] eqn:Hgames; [congruence|]. rewrite <- Hgames in *.
  split.
  - unfold py_item.
    destruct (Nat.ltb limit p) eqn:Hlt.
    + apply Nat.ltb_lt in Hlt.
      destruct (nth_error games (p - 1)) as [x|] eqn:Hx;
        [|apply nth_error_None in Hx; lia].
      cbn [res_bind].
      destruct (Nat.ltb p (List.length games - 1)) eqn:Hlast.
      * apply Nat.ltb_lt in Hlast.
        destruct (nth_error games (p + 1)) as [y|] eqn:Hy;
          [|apply nth_error_None in Hy; lia].
        cbn [res_bind]. f_equal. rewrite rank_lines_render.
        fold (top_entries games). text_eq.
      * cbn [res_bind]. f_equal. rewrite rank_lines_render.
        fold (top_entries games). text_eq.
    + cbn [res_bind].
      destruct (Nat.ltb p (List.length games - 1)) eqn:Hlast.
      * apply Nat.ltb_lt in Hlast.
        destruct (nth_error games (p + 1)) as [y|] eqn:Hy;
          [|apply nth_error_None in Hy; lia].
        cbn [res_bind]. f_equal. rewrite rank_lines_render.
        fold (top_entries games). text_eq.
      * cbn [res_bind]. f_equal. rewrite rank_lines_render.
        fold (top_entries games). text_eq.
  - apply in_or_app. right. apply in_or_app. left. now left.
Qed.

(** X18. What [lines_top] replies is the header, the first [limit] rows
    of the list it asked the database for, numbered from 1, and, after
    an empty line, at most three more rows around the sender. Every line
    carries the position of its row in that list, counted from 1; the
    numbers increase from line to line, so that no rank is shown twice;
    and a sender who has a game is always among the rows shown. *)
Theorem lines_top_listing :
  forall (m : Message) (d : DB) (text : string),
    lines_top get_games m d = Ok text ->
    exists around : list (nat * game_row),
      let asked := asked_games get_games m d in
      let shown := top_entries asked ++ around in
      text = (scoreboard_header
              ++ match asked with
                 | [] => "(Empty list)"
                 | _ :: _ => EmptyString
                 end
              ++ render d (top_entries asked)
              ++ match around with
                 | [] => EmptyString
                 | _ :: _ => nl ++ render d around
                 end)%string
      /\ (forall n g, In (n, g) shown ->
                      (1 <= n)%nat /\ nth_error asked (n - 1) = Some g)
      /\ StronglySorted lt (map fst shown)
      /\ (List.length (top_entries asked) <= limit)%nat
      /\ (List.length around <= 3)%nat
      /\ (forall game, get_game_by_addr d (m_addr m) = Some game ->
                       In game (map snd shown)).
Proof.
  intros m d text H. unfold asked_games.
  assert (Htop : forall l, (List.length (top_entries l) <= limit)%nat).
  { intros l. rewrite <- (length_map fst), top_entries_ranks, length_seq.
    lia. }
  assert (Hpos : forall l n g, In (n, g) (top_entries l ++ []) ->
                   (1 <= n)%nat /\ nth_error l (n - 1) = Some g).
  { intros l n g Hin. rewrite app_nil_r in Hin.
    apply top_entries_position in Hin. split; [lia|tauto]. }
  assert (Hsort : forall l, StronglySorted lt (map fst (top_entries l ++ []))).
  { intros l. rewrite app_nil_r, top_entries_ranks. apply sorted_seq. }
  destruct (get_game_by_addr d (m_addr m)) as [game|] eqn:Hg.
  - destruct (py_index game (get_games d None)) as [p|] eqn:Hp.
    + destruct (Nat.leb limit p) eqn:Hle.
      * apply Nat.leb_le in Hle.
        destruct (lines_top_around m d game p Hg Hp Hle) as [Ht Hin].
        rewrite Ht in H. injection H as <-.
        exists (around_entries (get_games d None) p). cbv zeta.
        apply py_index_Some in Hp. destruct Hp as [Hn Hlen].
        split; [|split; [|split; [|split; [|split]]]].
        -- destruct (get_games d None) as [|g0 gs];
             [cbn in Hlen; lia|].
           destruct (around_entries (g0 :: gs) p); [destruct Hin|].
           reflexivity.
        -- intros n g H0. apply in_app_or in H0. destruct H0 as [H0|H0].
           ++ apply top_entries_position in H0. split; [lia|tauto].
           ++ apply around_entries_position in H0; [|exact Hle].
              split; [lia|tauto].
        -- rewrite map_app. apply sorted_app.
           ++ rewrite top_entries_ranks. apply sorted_seq.
           ++ apply around_entries_sorted.
           ++ intros x y Hx Hy. apply in_map_iff in Hx, Hy.
              destruct Hx as [[n1 g1] [<- Hx]].
              destruct Hy as [[n2 g2] [<- Hy]].
              apply top_entries_position in Hx.
              apply around_entries_position in Hy; [|exact Hle].
              cbn. lia.
        -- apply Htop.
        -- apply around_entries_length.
        -- intros game' [= <-]. rewrite map_app. apply in_or_app. right.
           apply in_map_iff. exists ((p + 1)%nat, game). auto.
      * apply Nat.leb_gt in Hle. unfold lines_top in H.
        rewrite Hg, Hp in H.
        assert (Hleb : Nat.leb limit p = false) by now apply Nat.leb_gt.
        rewrite Hleb in H. injection H as <-.
        apply py_index_Some in Hp. destruct Hp as [Hn Hlen].
        exists []. cbv zeta.
        split; [|split; [|split; [|split; [|split]]]].
        -- rewrite rank_lines_render.
           fold (top_entries (get_games d None)).
           destruct (get_games d None) as [|g0 gs];
             [cbn in Hlen; lia|].
           cbn [String.append].
           now rewrite ?str_app_assoc, ?str_app_nil_r.
        -- apply Hpos.
        -- apply Hsort.
        -- apply Htop.
        -- cbn. lia.
        -- intros game' [= <-]. rewrite app_nil_r. apply in_map_iff.
           exists ((p + 1)%nat, game). split; [reflexivity|].
           now apply top_entries_has.
    + unfold lines_top in H. rewrite Hg, Hp in H. discriminate.
  - unfold lines_top in H. rewrite Hg in H. injection H as <-.
    exists []. cbv zeta. split; [|split; [|split; [|split; [|split]]]].
    + rewrite rank_lines_render.
      fold (top_entries (get_games d (Some limit))).
      destruct (get_games d (Some limit)) as [|g0 gs];
        now rewrite ?str_app_assoc, ?str_app_nil_r.
    + apply Hpos.
    + apply Hsort.
    + apply Htop.
    + cbn. lia.
    + discriminate.
Qed.

(** X19. [lines_top] raises in one case only: the sender has a game and
    the list [db.get_games()] returned does not hold its row, which
    [games.index] answers with a [ValueError]. The rows it picks by
    position, before and after the sender's, are always within the
    list. *)
Theorem lines_top_raises_only_unlisted :
  forall (m : Message) (d : DB) (e : exn),
    lines_top get_games m d = Raise e
    <-> e = ValueError
        /\ exists game,
             get_game_by_addr d (m_addr m) = Some game
             /\ ~ In game (get_games d None).
Proof.
  intros m d e. split.
  - intros H.
    destruct (get_game_by_addr d (m_addr m)) as [game|] eqn:Hg.
    + destruct (py_index game (get_games d None)) as [p|] eqn:Hp.
      * destruct (Nat.leb limit p) eqn:Hle.
        -- apply Nat.leb_le in Hle.
           destruct (lines_top_around m d game p Hg Hp Hle) as [Ht _].
           rewrite Ht in H. discriminate.
        -- unfold lines_top in H. rewrite Hg, Hp, Hle in H. discriminate.
      * unfold lines_top in H. rewrite Hg, Hp in H. injection H as <-.
        split; [reflexivity|]. exists game. split; [reflexivity|].
        now apply py_index_None.
    + unfold lines_top in H. rewrite Hg in H. discriminate.
  - intros [-> [game [Hg Hn]]]. apply py_index_None in Hn.
    unfold lines_top. now rewrite Hg, Hn.
Qed.

End TopFacts.

(** ** Concrete runs of the handlers *)

Lemma LinesEngine_no_assert : engine_no_assert LinesEngine.
Proof.
  split; [|split].
  - intros [str|] old g; cbn [Board LinesEngine].
    + cbn [fst]. destruct (Lines.import str) as [st|[]]; cbn; discriminate.
    + destruct (Lines.fresh _ g). cbn. discriminate.
  - intros t b. cbn. destruct (Lines.move t b) as [st|[]]; cbn; discriminate.
  - intros b g. cbn. destruct (Lines.next b g); discriminate.
Defined.

Lemma db_with_nicks_ok (b : option string) (sc : Z) : nicks_ok (db_with b sc).
Proof.
  split; [|split].
  - constructor; [intros []|constructor].
  - constructor; [intros []|constructor].
  - constructor; [|constructor]. split; [discriminate|].
    exists [65; 108; 105; 99; 101]%N. split; reflexivity.
Defined.


Lemma operations_never_fail_assertion_witness :
  snd (run_op latin1 LinesEngine (OpRepeat (msg text_c6a1))
         (world0 (db_with (Some board_over_50) 42) 5%N))
  <> Raise AssertionError.
Proof.
  apply (operations_never_fail_assertion latin1 LinesEngine
           LinesEngine_no_assert).
Defined.

Lemma filter_messages_accepted_move_witness :
  let w := world0 (db_with (Some board_started) 42) 5%N in
  let r := filter_messages latin1 LinesEngine (msg text_c6a1) w in
  snd r = Ok tt
  /\ w_db (fst r) = db_with (Some (Lines.export st_moved)) 42
  /\ w_replies (fst r)
     = [ {| r_text := turn_text LinesEngine st_moved 42; r_chat := None |} ].
Proof.
  destruct (filter_messages_accepted_move latin1 LinesEngine
              (msg text_c6a1)
              (world0 (db_with (Some board_started) 42) 5%N)
              (row_with (Some board_started) 42)
              st_started st_moved st_moved 5%N 5%N)
    as [H1 [H2 [_ H4]]].
  - reflexivity.
  - reflexivity.
  - reflexivity.
  - vm_compute. reflexivity.
  - vm_compute. reflexivity.
  - vm_compute. reflexivity.
  - vm_compute. discriminate.
  - cbv zeta. rewrite H1, H2, H4. repeat split.
Defined.

Lemma filter_messages_invalid_after_store_witness :
  let w := Build_world FragileEngine (db_with (Some board_started) 42) tt
             [] [] in
  let r := filter_messages latin1 FragileEngine (msg text_c6a1) w in
  snd r = Ok tt
  /\ get_game_by_gid (w_db (fst r)) 7 = Some (row_with (Some "moved"%string) 42)
  /\ w_replies (fst r) = [invalid_move].
Proof.
  apply (filter_messages_invalid_after_store latin1 FragileEngine
           (msg text_c6a1)
           (Build_world FragileEngine (db_with (Some board_started) 42) tt
              [] [])
           (row_with (Some board_started) 42) tt tt tt tt).
  - reflexivity.
  - reflexivity.
  - reflexivity.
  - reflexivity.
  - reflexivity.
  - reflexivity.
Defined.

Lemma filter_messages_other_exception_witness :
  let w := world0 (db_with (Some board_junk) 42) 5%N in
  let r := filter_messages latin1 LinesEngine (msg text_c6a1) w in
  snd r = Raise OtherError
  /\ w_db (fst r) = db_with (Some board_junk) 42
  /\ w_replies (fst r) = [].
Proof.
  apply (filter_messages_other_exception latin1 LinesEngine
           (msg text_c6a1)
           (world0 (db_with (Some board_junk) 42) 5%N)
           (row_with (Some board_junk) 42) (Raise OtherError) 5%N
           OtherError).
  - reflexivity.
  - reflexivity.
  - reflexivity.
  - vm_compute. reflexivity.
  - left. reflexivity.
  - discriminate.
Defined.


Lemma lines_repeat_ongoing_witness :
  let w := world0 (db_with (Some board_started) 42) 5%N in
  let r := lines_repeat LinesEngine (msg text_c6a1) w in
  snd r = Ok tt
  /\ w_db (fst r) = db_with (Some board_started) 42
  /\ w_replies (fst r)
     = [ {| r_text := turn_text LinesEngine st_started 42;
            r_chat := Some 7 |} ].
Proof.
  pose proof (lines_repeat_ongoing LinesEngine (msg text_c6a1)
                (world0 (db_with (Some board_started) 42) 5%N)
                (row_with (Some board_started) 42)
                (row_with (Some board_started) 42) st_started 5%N) as H.
  cbv zeta. rewrite H.
  - repeat split.
  - reflexivity.
  - reflexivity.
  - reflexivity.
  - vm_compute. reflexivity.
  - vm_compute. discriminate.
Defined.


Lemma empty_board_is_no_active_game_witness :
  let w := world0 (db_with (Some EmptyString) 42) 5%N in
  filter_messages latin1 LinesEngine (msg text_c6a1) w = (w, Ok tt)
  /\ lines_next LinesEngine (msg text_c6a1) w
     = (push_reply {| r_text := no_active_game; r_chat := None |} w, Ok tt)
  /\ lines_repeat LinesEngine (msg text_c6a1) w
     = (push_reply {| r_text := no_active_game; r_chat := None |} w, Ok tt).
Proof.
  destruct (empty_board_is_no_active_game latin1 LinesEngine
              (msg text_c6a1)
              (world0 (db_with (Some EmptyString) 42) 5%N)
              (row_with (Some EmptyString) 42)) as [H1 H2].
  - reflexivity.
  - destruct H1 as [Ha Hb]; [reflexivity|].
    split; [exact Ha|]. split; [exact Hb|]. apply H2. reflexivity.
Defined.

Lemma lines_play_new_player_witness :
  lines_play LinesEngine 9 (msg text_c6a1) (world0 db_empty 5%N)
  = (push_reply {| r_text := need_nick; r_chat := None |}
       (world0 db_empty 5%N), Ok tt)
  /\ let r := lines_play LinesEngine 9 (msg text_c6a1)
                (world0 db_nick_only 5%N) in
     snd r = Ok tt
     /\ games (w_db (fst r))
        = [ {| g_addr := alice; g_gid := 9;
               g_board := Some (Lines.export st_new); g_score := 0 |} ].
Proof.
  split.
  - apply (lines_play_new_player LinesEngine 9 (msg text_c6a1)
             (world0 db_empty 5%N)). reflexivity.
  - destruct (lines_play_new_player LinesEngine 9 (msg text_c6a1)
                (world0 db_nick_only 5%N)) as [_ H].
    destruct (H st_new st_new rng_new rng_new) as [H1 [H2 _]].
    + reflexivity.
    + reflexivity.
    + intros [].
    + vm_compute. reflexivity.
    + vm_compute. reflexivity.
    + vm_compute. discriminate.
    + cbv zeta. rewrite H1, H2. split; reflexivity.
Defined.

Lemma member_removed_deletes_the_game_witness :
  let r := deltabot_member_removed bot_contact 7 alice_contact
             (db_with (Some board_started) 42) in
  get_game_by_addr (fst r) alice = None
  /\ nicks (fst r) = [ (alice, "Alice"%string) ]
  /\ snd r = true.
Proof.
  destruct (member_removed_deletes_the_game bot_contact alice_contact 7
              (db_with (Some board_started) 42)) as [H _].
  destruct (H (row_with (Some board_started) 42)) as [H1 [_ [_ [H4 H5]]]].
  - reflexivity.
  - right. reflexivity.
  - split; [exact H1|]. split; [exact H4|exact H5].
Defined.

Lemma member_removed_then_idle_witness :
  let w := with_db (fst (deltabot_member_removed bot_contact 7
                           alice_contact
                           (db_with (Some board_started) 42)))
             (world0 (db_with (Some board_started) 42) 5%N) in
  filter_messages latin1 LinesEngine (msg text_c6a1) w = (w, Ok tt)
  /\ lines_next LinesEngine (msg text_c6a1) w
     = (push_reply {| r_text := no_active_game; r_chat := None |} w, Ok tt).
Proof.
  apply (member_removed_then_idle latin1 LinesEngine bot_contact
           alice_contact 7
           (world0 (db_with (Some board_started) 42) 5%N)
           (row_with (Some board_started) 42) (msg text_c6a1)).
  - constructor; [intros []|constructor].
  - reflexivity.
  - right. reflexivity.
  - reflexivity.
Defined.

Lemma lines_nick_keeps_registry_witness :
  nicks_ok (fst (lines_nick text_bob bob (db_with None 0)))
  /\ get_nick (fst (lines_nick text_bob bob (db_with None 0))) alice
     = Some "Alice"%string.
Proof.
  destruct (lines_nick_keeps_registry text_bob bob (db_with None 0))
    as [H1 [_ H3]].
  - apply db_with_nicks_ok.
  - discriminate.
  - split; [exact H1|]. rewrite (H3 alice); [reflexivity|discriminate].
Defined.

Lemma lines_nick_then_lookup_witness :
  let r := lines_nick text_bob bob (db_with None 0) in
  get_nick (fst r) bob = Some "Bob"%string
  /\ get_addr (fst r) "Bob"%string = Some bob
  /\ snd r = "** Nick: Bob"%string.
Proof.
  destruct (lines_nick_then_lookup text_bob text_bob bob (db_with None 0))
    as [H1 [H2 [_ H4]]].
  - apply db_with_nicks_ok.
  - discriminate.
  - discriminate.
  - reflexivity.
  - reflexivity.
  - reflexivity.
  - split; [exact H1|]. split; [exact H2|exact H4].
Defined.

(** The example of the command's own help text, [/lines_nick Dark
    Warrior], is refused: the space is not in the class. *)
Example dark_warrior_is_refused (a : string) (d : DB) :
  lines_nick text_dark_warrior a d = (d, invalid_nick).
Proof. reflexivity. Qed.

Lemma lines_top_listing_witness :
  lines_top games_in_table_order msg_player16 db_league = Ok text_league
  /\ exists around,
       let shown := top_entries (games db_league) ++ around in
       StronglySorted lt (map fst shown)
       /\ In (league_row 16) (map snd shown)
       /\ (List.length shown <= 18)%nat.
Proof.
  assert (H : lines_top games_in_table_order msg_player16 db_league
              = Ok text_league) by (vm_compute; reflexivity).
  split; [exact H|].
  destruct (lines_top_listing games_in_table_order msg_player16 db_league
              text_league H) as [around [_ [_ [Hs [Ht [Ha Hin]]]]]].
  exists around. cbv zeta. split; [exact Hs|]. split.
  - apply Hin. reflexivity.
  - rewrite length_app.
    change (asked_games games_in_table_order msg_player16 db_league)
      with (games db_league) in Ht.
    unfold limit in Ht. lia.
Defined.

Lemma lines_top_raises_only_unlisted_witness :
  lines_top (fun _ _ => []) (msg text_c6a1) (db_with None 42)
  = Raise ValueError.
Proof.
  apply (lines_top_raises_only_unlisted (fun _ _ => []) (msg text_c6a1)
           (db_with None 42) ValueError).
  split; [reflexivity|]. exists (row_with None 42).
  split; [reflexivity|intros []].
Defined.
